(** * pgmigrate: a shallow embedding of [pgmigrate.go]

    The Go package validates a list of migrations, compares it with the
    history recorded in a bookkeeping table and applies what is missing inside
    one transaction.  The pure parts ([Migration.Valid], [Migrations.Valid],
    [quoteIdentifier], the comparison loop of [verifyMigrations]) are plain
    functions.  The parts that talk to [database/sql] are written in a small
    state-and-error monad over a connection that carries the durable store, the
    open transaction, a clock and the trace of driver calls. *)

From Stdlib Require Import ZArith List String Ascii Bool Lia DecimalString.
From Stdlib Require Import Permutation.
Import ListNotations.

#[local] Open Scope Z_scope.
#[local] Open Scope list_scope.

(** [length] is the length of a list throughout; the length of a string is
    written [String.length]. *)
#[local] Abbreviation length := List.length (only parsing).

(* ================================================================== *)
(** * Errors                                                           *)
(* ================================================================== *)

(** Go builds its errors with [fmt.Errorf]; every format string of the package
    is one constructor here, and [Error] renders the message. *)
Inductive error : Type :=
| ErrInvalidID (id : Z)
| ErrMissingDescription
| ErrMissingSQL
| ErrUnexpectedID (got want : Z)
| ErrInvalidMigration (id : Z) (cause : error)
| ErrUnknownMigration (id : Z)
| ErrModifiedMigration (id : Z)
| ErrApply (id : Z) (description : string) (cause : error)
| ErrDriver (msg : string).

(** [%d] of an [int]. *)
Definition itoa (z : Z) : string := NilZero.string_of_int (Z.to_int z).

Fixpoint Error (e : error) : string :=
  match e with
  | ErrInvalidID id => "invalid id: " ++ itoa id
  | ErrMissingDescription => "missing description"
  | ErrMissingSQL => "missing sql"
  | ErrUnexpectedID got want =>
      "unexpected migration id: got=" ++ itoa got ++ " want=" ++ itoa want
  | ErrInvalidMigration id cause =>
      "invalid migration " ++ itoa id ++ ": " ++ Error cause
  | ErrUnknownMigration id => "unknown migration " ++ itoa id ++ " in db"
  | ErrModifiedMigration id => "modified migration " ++ itoa id ++ " detected"
  | ErrApply id description cause =>
      itoa id ++ " " ++ description ++ ": " ++ Error cause
  | ErrDriver msg => msg
  end%string.

(* ================================================================== *)
(** * Migration and Migrations                                         *)
(* ================================================================== *)

(** [type Migration struct { ID int; Description string; SQL string }].
    A Go [int] never wraps here: the package only compares ids. *)
Record Migration : Type := mkMigration {
  ID : Z;
  Description : string;
  SQL : string
}.

(** [type Migrations []Migration] *)
Definition Migrations : Type := list Migration.

Definition is_empty (s : string) : bool :=
  match s with EmptyString => true | String _ _ => false end.

(** [func (m *Migration) Valid() error]; [None] is [nil]. *)
Definition Migration_Valid (m : Migration) : option error :=
  if ID m <? 1 then Some (ErrInvalidID (ID m))
  else if is_empty (Description m) then Some ErrMissingDescription
  else if is_empty (SQL m) then Some ErrMissingSQL
  else None.

(** [func (m Migrations) Less(i, j int) bool], on the two elements. *)
Definition Less (a b : Migration) : bool := ID a <? ID b.

(** The loop of [Migrations.Valid], started at index [i]. *)
Fixpoint Migrations_Valid_from (i : Z) (m : Migrations) : option error :=
  match m with
  | [] => None
  | mi :: rest =>
      if negb (ID mi =? i + 1) then Some (ErrUnexpectedID (ID mi) (i + 1))
      else match Migration_Valid mi with
           | Some err => Some (ErrInvalidMigration (ID mi) err)
           | None => Migrations_Valid_from (i + 1) rest
           end
  end.

(** [func (m Migrations) Valid() error] *)
Definition Migrations_Valid (m : Migrations) : option error :=
  Migrations_Valid_from 0 m.

(** [func (m Migrations) IDs() []int] *)
Definition IDs (m : Migrations) : list Z := map ID m.

(** [sort.Sort(ms)] as [LoadMigrations] calls it: the list ordered by [Less].
    Go's sort is not stable; on lists without two equal ids every sort gives
    this result. *)
Fixpoint insert_by_ID (x : Migration) (l : Migrations) : Migrations :=
  match l with
  | [] => [x]
  | y :: l' => if Less y x then y :: insert_by_ID x l' else x :: l
  end.

Fixpoint Sort (l : Migrations) : Migrations :=
  match l with
  | [] => []
  | x :: l' => insert_by_ID x (Sort l')
  end.

(** The struct comparison [dbM != ms[0]] of [verifyMigrations], negated. *)
Definition Migration_eqb (a b : Migration) : bool :=
  (ID a =? ID b) && String.eqb (Description a) (Description b)
  && String.eqb (SQL a) (SQL b).

(** Dense, 1-based numbering of a list as it is presented: the element at
    position [i] (0-based) has id [i+1]. *)
Definition dense (m : Migrations) : Prop :=
  forall (i : nat) (x : Migration),
    nth_error m i = Some x -> ID x = Z.of_nat i + 1.

Definition individually_valid (m : Migrations) : Prop :=
  Forall (fun x => Migration_Valid x = None) m.

(* ================================================================== *)
(** * quoteIdentifier                                                  *)
(* ================================================================== *)

Definition NUL : ascii := "000"%char.
Definition dquote : ascii := "034"%char.

(** [strings.IndexRune(s, r)] for a rune below [utf8.RuneSelf], which Go
    answers with [IndexByte]: the index of the first such byte, or [-1]. *)
Fixpoint IndexByte (s : string) (b : ascii) : Z :=
  match s with
  | EmptyString => -1
  | String a s' =>
      if Ascii.eqb a b then 0
      else let i := IndexByte s' b in if i <? 0 then -1 else i + 1
  end.

(** The slice [name[:n]] for [0 <= n <= len(name)]. *)
Definition slice_to (name : string) (n : Z) : string :=
  substring 0 (Z.to_nat n) name.

(** [strings.Replace(s, old, new, -1)] for a non-empty [old]: every
    non-overlapping occurrence, left to right.  [skip] counts the bytes of an
    occurrence that was just replaced and are still to be passed over. *)
Fixpoint replace_from (old new s : string) (skip : nat) : string :=
  match s with
  | EmptyString => EmptyString
  | String a s' =>
      match skip with
      | S k => replace_from old new s' k
      | O =>
          if prefix old s
          then (new ++ replace_from old new s' (String.length old - 1))%string
          else String a (replace_from old new s' 0)
      end
  end.

Definition ReplaceAll (s old new : string) : string := replace_from old new s 0.

Definition str1 (a : ascii) : string := String a EmptyString.

(** [func quoteIdentifier(name string) string] *)
Definition quoteIdentifier (name : string) : string :=
  let end_ := IndexByte name NUL in
  let name := if end_ >? -1 then slice_to name end_ else name in
  (str1 dquote ++ ReplaceAll name (str1 dquote) (str1 dquote ++ str1 dquote)
   ++ str1 dquote)%string.

(** The spec's words for the same function: the input up to its first NUL
    byte ... *)
Fixpoint truncate_at_NUL (s : string) : string :=
  match s with
  | EmptyString => EmptyString
  | String a s' => if Ascii.eqb a NUL then EmptyString
                   else String a (truncate_at_NUL s')
  end.

(** ... with every double quote doubled. *)
Fixpoint double_quotes (s : string) : string :=
  match s with
  | EmptyString => EmptyString
  | String a s' =>
      if Ascii.eqb a dquote then String dquote (String dquote (double_quotes s'))
      else String a (double_quotes s')
  end.

(** How the engine reads the inside of a quoted identifier: two quotes stand
    for one, a single quote must be the closing one and end the text. *)
Fixpoint read_quoted_body (s : string) : option string :=
  match s with
  | EmptyString => None
  | String a s' =>
      if Ascii.eqb a dquote then
        match s' with
        | EmptyString => Some EmptyString
        | String b s'' =>
            if Ascii.eqb b dquote
            then option_map (String dquote) (read_quoted_body s'')
            else None
        end
      else option_map (String a) (read_quoted_body s')
  end.

(** The identifier a quoted text denotes, if it is a well-formed quoted
    identifier. *)
Definition read_identifier (s : string) : option string :=
  match s with
  | EmptyString => None
  | String a s' => if Ascii.eqb a dquote then read_quoted_body s' else None
  end.

(** No quote stands alone: each one is followed or preceded by its double. *)
Fixpoint quotes_paired (s : string) : bool :=
  match s with
  | EmptyString => true
  | String a s' =>
      if Ascii.eqb a dquote then
        match s' with
        | EmptyString => false
        | String b s'' => Ascii.eqb b dquote && quotes_paired s''
        end
      else quotes_paired s'
  end.

(** A text without the byte [b]. *)
Fixpoint free_of (b : ascii) (s : string) : bool :=
  match s with
  | EmptyString => true
  | String a s' => negb (Ascii.eqb a b) && free_of b s'
  end.

(* ================================================================== *)
(** * Config and the statements the package issues                     *)
(* ================================================================== *)

Record Config : Type := mkConfig {
  Schema : string;
  Table : string
}.

Definition DefaultConfig : Config :=
  {| Schema := "migrations"; Table := "migrations" |}.

(** [func (c *Config) table() string] *)
Definition table (c : Config) : string :=
  (quoteIdentifier (Schema c) ++ "." ++ quoteIdentifier (Table c))%string.

Definition nl : string := str1 "010"%char.
Definition tab : string := str1 "009"%char.

(** The statement text built in [init]. *)
Definition init_sql (c : Config) : string :=
  (nl ++ "CREATE SCHEMA IF NOT EXISTS " ++ quoteIdentifier (Schema c) ++ ";" ++ nl
   ++ "CREATE TABLE IF NOT EXISTS " ++ table c ++ " (" ++ nl
   ++ "  id int NOT NULL," ++ nl
   ++ tab ++ "description text NOT NULL," ++ nl
   ++ tab ++ "sql text NOT NULL," ++ nl
   ++ tab ++ "duration interval NOT NULL," ++ nl
   ++ "  created timestamp without time zone DEFAULT (now() AT TIME ZONE 'UTC') NOT NULL"
   ++ nl ++ ");" ++ nl)%string.

(** The statement text built in [verifyMigrations]. *)
Definition select_sql (c : Config) : string :=
  ("SELECT id, description, sql FROM " ++ table c ++ " ORDER BY id ASC")%string.

(** The statement text built in [applyMigrations]. *)
Definition insert_sql (c : Config) : string :=
  ("INSERT INTO " ++ table c
   ++ " (id, description, sql, duration) VALUES ($1, $2, $3, $4)")%string.

(* ================================================================== *)
(** * The database as the package sees it                              *)
(* ================================================================== *)

(** Arguments bound to the placeholders of a statement.  A duration is kept
    in nanoseconds, as [time.Duration] has it. *)
Inductive Value : Type :=
| VInt (z : Z)
| VText (s : string)
| VSeconds (nanos : Z).

(** A call into [database/sql]. *)
Inductive Call : Type :=
| CallBegin
| CallExec (sql : string) (args : list Value)
| CallQuery (sql : string)
| CallCommit
| CallRollback.

(** A row of the bookkeeping table created by [init]. *)
Record Row : Type := mkRow {
  row_id : Z;
  row_description : string;
  row_sql : string;
  row_duration : Z;
  row_created : Z
}.

(** What [rows.Scan(&dbM.ID, &dbM.Description, &dbM.SQL)] reads of a row. *)
Definition scan_row (r : Row) : Migration :=
  {| ID := row_id r; Description := row_description r; SQL := row_sql r |}.

(** [ORDER BY id ASC]: rows by ascending id, rows of equal id in the order
    they were inserted. *)
Fixpoint insert_by_id (x : Row) (l : list Row) : list Row :=
  match l with
  | [] => [x]
  | y :: l' => if row_id y <=? row_id x then y :: insert_by_id x l' else x :: l
  end.

Definition order_by_id (l : list Row) : list Row :=
  fold_left (fun acc r => insert_by_id r acc) l [].

(** A database state: the bookkeeping table of the configuration at hand
    ([None] while it does not exist) and everything else. *)
Record Store (Objects : Type) : Type := mkStore {
  objects : Objects;
  bookkeeping : option (list Row)
}.
Arguments mkStore {Objects} _ _.
Arguments objects {Objects} _.
Arguments bookkeeping {Objects} _.

(** The result set of a query, as the [for rows.Next()] loop meets it: one
    entry per row (what [rows.Scan] returns for it) and the final
    [rows.Err()]. *)
Record Rows : Type := mkRows {
  scans : list (error + Migration);
  rows_Err : option error
}.

(** What the model leaves open about the engine: the effect of statements
    other than the package's own, failures the model does not explain
    (connectivity, privileges) and how long a call takes.  A statement acts
    on the view of the transaction it runs in: it may change anything in
    that view, the bookkeeping table included, but it cannot end the
    transaction. *)
Class Backend : Type := {
  Objects : Type;
  other_exec : string -> list Value -> Store Objects -> error + Store Objects;
  other_query : string -> Store Objects -> error + Rows;
  fault : Call -> Store Objects -> option error;
  latency : Call -> Store Objects -> Z
}.

(** An open transaction: when it began and its private view of the store. *)
Record Tx `{Backend} : Type := mkTx {
  started : Z;
  working : Store Objects
}.

(** The connection [*sql.DB] together with the one transaction [*sql.Tx] the
    package opens on it. *)
Record Conn `{Backend} : Type := mkConn {
  durable : Store Objects;
  tx : option Tx;
  clock : Z;
  trace : list Call
}.

Definition ErrTxDone : error :=
  ErrDriver "sql: transaction has already been committed or rolled back".

Definition ErrUndefinedTable : error :=
  ErrDriver "pq: relation does not exist".

Definition ErrBadArguments : error :=
  ErrDriver "pq: could not bind the arguments".

Section Engine.
Context `{B : Backend}.

(** The engine is told which configuration the package runs with: the three
    statements of that configuration act on the bookkeeping table as
    PostgreSQL defines them, every other text goes to [other_exec]. *)
Variable c : Config.

Definition create_if_absent (s : Store Objects) : Store Objects :=
  match bookkeeping s with
  | Some _ => s
  | None => {| objects := objects s; bookkeeping := Some [] |}
  end.

Definition insert_row (r : Row) (s : Store Objects) : error + Store Objects :=
  match bookkeeping s with
  | None => inl ErrUndefinedTable
  | Some rows => inr {| objects := objects s; bookkeeping := Some (rows ++ [r]) |}
  end.

(** A statement run inside transaction [t]. *)
Definition execute (sql : string) (args : list Value) (t : Tx)
  : error + Store Objects :=
  if String.eqb sql (init_sql c) && match args with [] => true | _ => false end
  then inr (create_if_absent (working t))
  else if String.eqb sql (insert_sql c) then
    match args with
    | [VInt id; VText description; VText q; VSeconds d] =>
        insert_row {| row_id := id; row_description := description;
                      row_sql := q; row_duration := d;
                      row_created := started t |} (working t)
    | _ => inl ErrBadArguments
    end
  else other_exec sql args (working t).

(** A query run inside transaction [t]. *)
Definition answer (sql : string) (t : Tx) : error + Rows :=
  if String.eqb sql (select_sql c) then
    match bookkeeping (working t) with
    | None => inl ErrUndefinedTable
    | Some rows =>
        inr {| scans := map (fun r => inr (scan_row r)) (order_by_id rows);
               rows_Err := None |}
    end
  else other_query sql (working t).
End Engine.

(* ================================================================== *)
(** * The monad of the database code                                   *)
(* ================================================================== *)

(** A computation reads and updates the connection and returns a value or a
    Go [error]. *)
Definition M `{Backend} (A : Type) : Type := Conn -> (error + A) * Conn.

Definition ret `{Backend} {A : Type} (a : A) : M A := fun k => (inr a, k).

Definition fail `{Backend} {A : Type} (e : error) : M A := fun k => (inl e, k).

Definition bind `{Backend} {A C : Type} (m : M A) (f : A -> M C) : M C :=
  fun k => match m k with
           | (inr a, k') => f a k'
           | (inl e, k') => (inl e, k')
           end.

(** [if _, err := call; err != nil { return nil, wrap(err) }] *)
Definition wrapping `{Backend} {A : Type} (wrap : error -> error) (m : M A) : M A :=
  fun k => match m k with
           | (inr a, k') => (inr a, k')
           | (inl e, k') => (inl (wrap e), k')
           end.

(** [defer d]: [d] runs when [body] returns, whatever it returns; what [d]
    itself returns is dropped. *)
Definition defer `{Backend} {A D : Type} (d : M D) (body : M A) : M A :=
  fun k => let (r, k') := body k in (r, snd (d k')).

Declare Scope go_scope.
Delimit Scope go_scope with go.
Notation "x <- m ;; f" := (bind m (fun x => f))
  (at level 61, m at next level, right associativity) : go_scope.
Notation "m ;;; f" := (bind m (fun _ => f))
  (at level 61, right associativity) : go_scope.

Section Driver.
Context `{B : Backend}.
Variable c : Config.

(** Every call is recorded and takes time. *)
Definition observe (call : Call) (k : Conn) : Conn :=
  let seen := match tx k with Some t => working t | None => durable k end in
  {| durable := durable k; tx := tx k;
     clock := clock k + latency call seen;
     trace := trace k ++ [call] |}.

Definition with_tx (k : Conn) (t : option Tx) : Conn :=
  {| durable := durable k; tx := t; clock := clock k; trace := trace k |}.

(** [time.Now()] *)
Definition time_Now : M Z := fun k => (inr (clock k), k).

(** [db.Begin()] *)
Definition db_Begin : M unit := fun k =>
  let k := observe CallBegin k in
  match fault CallBegin (durable k) with
  | Some e => (inl e, k)
  | None =>
      (inr tt, with_tx k (Some {| started := clock k; working := durable k |}))
  end.

(** [tx.Exec(sql, args...)] *)
Definition tx_Exec (sql : string) (args : list Value) : M unit := fun k =>
  let k := observe (CallExec sql args) k in
  match tx k with
  | None => (inl ErrTxDone, k)
  | Some t =>
      match fault (CallExec sql args) (working t) with
      | Some e => (inl e, k)
      | None =>
          match execute c sql args t with
          | inl e => (inl e, k)
          | inr w =>
              (inr tt, with_tx k (Some {| started := started t; working := w |}))
          end
      end
  end.

(** [tx.Query(sql)], with the rows it will deliver. *)
Definition tx_Query (sql : string) : M Rows := fun k =>
  let k := observe (CallQuery sql) k in
  match tx k with
  | None => (inl ErrTxDone, k)
  | Some t =>
      match fault (CallQuery sql) (working t) with
      | Some e => (inl e, k)
      | None =>
          match answer c sql t with
          | inl e => (inl e, k)
          | inr rows => (inr rows, k)
          end
      end
  end.

(** [tx.Commit()]: the transaction is over either way; only a commit that
    succeeds makes its view durable. *)
Definition tx_Commit : M unit := fun k =>
  let k := observe CallCommit k in
  match tx k with
  | None => (inl ErrTxDone, k)
  | Some t =>
      match fault CallCommit (working t) with
      | Some e => (inl e, with_tx k None)
      | None =>
          (inr tt, {| durable := working t; tx := None;
                      clock := clock k; trace := trace k |})
      end
  end.

(** [tx.Rollback()]: drops the view of an open transaction; on a finished
    one it only reports [ErrTxDone]. *)
Definition tx_Rollback : M unit := fun k =>
  let k := observe CallRollback k in
  match tx k with
  | None => (inl ErrTxDone, k)
  | Some _ => (inr tt, with_tx k None)
  end.

#[local] Open Scope go_scope.

(** [func (c *Config) init(tx *sql.Tx) error] *)
Definition init : M unit := tx_Exec (init_sql c) [].

(** The body of the [for rows.Next()] loop of [verifyMigrations], over the
    rows still to come. *)
Fixpoint verifyRows (rows : list (error + Migration)) (ms : Migrations)
  : error + Migrations :=
  match rows with
  | [] => inr ms
  | inl err :: _ => inl err
  | inr dbM :: rows' =>
      match ms with
      | [] => inl (ErrUnknownMigration (ID dbM))
      | m0 :: ms' =>
          if negb (Migration_eqb dbM m0)
          then inl (ErrModifiedMigration (ID dbM))
          else verifyRows rows' ms'
      end
  end.

(** [func (c *Config) verifyMigrations(tx *sql.Tx, ms Migrations)
    (Migrations, error)] *)
Definition verifyMigrations (ms : Migrations) : M Migrations :=
  let sql := select_sql c in
  rows <- tx_Query sql ;;
  match verifyRows (scans rows) ms with
  | inl err => fail err
  | inr ms =>
      match rows_Err rows with
      | Some err => fail err
      | None => ret ms
      end
  end.

(** The [for _, m := range ms] loop of [applyMigrations]. *)
Fixpoint applyEach (sql : string) (ms : Migrations) : M unit :=
  match ms with
  | [] => ret tt
  | m :: rest =>
      start <- time_Now ;;
      wrapping (ErrApply (ID m) (Description m)) (tx_Exec (SQL m) []) ;;;
      now <- time_Now ;;
      let duration := now - start in
      wrapping (ErrApply (ID m) (Description m))
        (tx_Exec sql [VInt (ID m); VText (Description m); VText (SQL m);
                      VSeconds duration]) ;;;
      applyEach sql rest
  end.

(** [func (c *Config) applyMigrations(tx *sql.Tx, ms Migrations)
    (Migrations, error)] *)
Definition applyMigrations (ms : Migrations) : M Migrations :=
  let sql := insert_sql c in
  applyEach sql ms ;;;
  tx_Commit ;;;
  ret ms.

(** [func (c *Config) Migrate(db *sql.DB, ms Migrations) (Migrations, error)] *)
Definition Migrate (ms : Migrations) : M Migrations :=
  match Migrations_Valid ms with
  | Some err => fail err
  | None =>
      db_Begin ;;;
      defer tx_Rollback
        (init ;;;
         ms <- verifyMigrations ms ;;
         applyMigrations ms)
  end.
End Driver.

(** The comparison of a recorded history that was read without error. *)
Definition verify (recorded candidate : Migrations) : error + Migrations :=
  verifyRows (map inr recorded) candidate.

(** The recorded history of a store as [verifyMigrations] reads it. *)
Definition history `{Backend} (s : Store Objects) : Migrations :=
  match bookkeeping s with
  | None => []
  | Some rows => map scan_row (order_by_id rows)
  end.

(** The rows of the bookkeeping table, none while it does not exist. *)
Definition recorded_rows `{Backend} (s : Store Objects) : list Row :=
  match bookkeeping s with
  | None => []
  | Some rows => rows
  end.

(* ================================================================== *)
(** * Vocabulary of the statements about the database code            *)
(* ================================================================== *)

(** A list whose ids count upwards from [i+1]. *)
Definition counting_from (i : Z) (m : Migrations) : Prop :=
  forall (n : nat) (x : Migration),
    nth_error m n = Some x -> ID x = i + Z.of_nat n + 1.

(** Ids that grow strictly along the list. *)
Definition strictly_ascending (m : Migrations) : Prop :=
  forall (i j : nat) (a b : Migration),
    (i < j)%nat -> nth_error m i = Some a -> nth_error m j = Some b ->
    ID a < ID b.

(** The calls [applyMigrations] makes for one migration that it applies and
    records with duration [d]. *)
Definition calls_of (c : Config) (md : Migration * Z) : list Call :=
  let (m, d) := md in
  [CallExec (SQL m) [];
   CallExec (insert_sql c)
     [VInt (ID m); VText (Description m); VText (SQL m); VSeconds d]].

(** The row the engine writes for such a call in a transaction begun at
    [start]. *)
Definition row_of (start : Z) (md : Migration * Z) : Row :=
  let (m, d) := md in
  {| row_id := ID m; row_description := Description m; row_sql := SQL m;
     row_duration := d; row_created := start |}.

(** The statements run without arguments, in the order of the trace. *)
Fixpoint statements (calls : list Call) : list string :=
  match calls with
  | [] => []
  | CallExec sql [] :: rest => sql :: statements rest
  | _ :: rest => statements rest
  end.

(** A computation that leaves the durable store alone. *)
Definition quiet `{Backend} {A : Type} (m : M A) : Prop :=
  forall k r k', m k = (r, k') -> durable k' = durable k.

(** A computation that runs inside the open transaction: it never touches the
    durable store and neither opens nor closes a transaction. *)
Definition inside `{Backend} {A : Type} (m : M A) : Prop :=
  forall k r k', m k = (r, k') ->
    durable k' = durable k
    /\ (forall t, tx k = Some t ->
          exists w, tx k' = Some {| started := started t; working := w |})
    /\ (tx k = None -> tx k' = None).

(** The assumption that statements other than the package's own leave the
    bookkeeping table alone. *)
Definition keeps_bookkeeping (B : Backend) : Prop :=
  forall sql args s s',
    other_exec sql args s = inr s' -> bookkeeping s' = bookkeeping s.

(** The four calls of a run that has nothing to apply go through on store
    [s]: no failure from outside the model. *)
Definition calm `{Backend} (c : Config) (s : Store Objects) : Prop :=
  fault CallBegin s = None
  /\ fault (CallExec (init_sql c) []) s = None
  /\ fault (CallQuery (select_sql c)) (create_if_absent s) = None
  /\ fault CallCommit (create_if_absent s) = None.

(** Rows in ascending order of id: no row has a larger id than a later one. *)
Fixpoint ascending (l : list Row) : Prop :=
  match l with
  | [] => True
  | x :: l' => Forall (fun y => row_id x <= row_id y) l' /\ ascending l'
  end.

(* ================================================================== *)
(** * Concrete data: the migrations of the package's tests and a small
      backend to run them on                                           *)
(* ================================================================== *)

Definition create_schema : Migration :=
  {| ID := 1; Description := "1_create_schema.sql"; SQL := "CREATE SCHEMA foo;" |}.

Definition create_table : Migration :=
  {| ID := 2; Description := "2_create_table.sql";
     SQL := "CREATE TABLE foo.bar();" |}.

Definition create_schema_edited : Migration :=
  {| ID := 1; Description := "1_create_schema.sql"; SQL := "CREATE SCHEMA bar;" |}.

Definition broken_statement : Migration :=
  {| ID := 2; Description := "2_broken.sql"; SQL := "SELECT 1/0;" |}.

(** A backend whose other objects are the list of statements that ran; one
    statement, a division by zero, fails; a store whose object list starts
    with the marker [offline] refuses to commit. *)
Definition offline : string := "offline".

#[local] Instance Journal : Backend := {|
  Objects := list string;
  other_exec sql args s :=
    if String.eqb sql "SELECT 1/0;" then inl (ErrDriver "pq: division by zero")
    else inr {| objects := objects s ++ [sql]; bookkeeping := bookkeeping s |};
  other_query sql s := inl (ErrDriver "pq: syntax error");
  fault call s :=
    match call, objects s with
    | CallCommit, first :: _ =>
        if String.eqb first offline then Some (ErrDriver "driver: bad connection")
        else None
    | _, _ => None
    end;
  latency call s := 1
|}.

Definition fresh : @Conn Journal :=
  {| durable := {| objects := []; bookkeeping := None |};
     tx := None; clock := 0; trace := [] |}.

(** The connection after [create_schema] was applied and recorded. *)
Definition after_first : @Conn Journal :=
  snd (Migrate DefaultConfig [create_schema] fresh).

(** A connection to a database that will not commit. *)
Definition unreachable : @Conn Journal :=
  {| durable := {| objects := [offline]; bookkeeping := None |};
     tx := None; clock := 0; trace := [] |}.

(** The connection [after_first] with a transaction begun and [init] run,
    as [applyMigrations] finds it. *)
Definition begun : @Conn Journal :=
  snd (bind db_Begin (fun _ => init DefaultConfig) after_first).

(* ================================================================== *)
(** * sort.Interface                                                   *)
(* ================================================================== *)

(** [m[i]] for a Go [int]; [None] is the index-out-of-range panic. *)
Definition at_index (m : Migrations) (i : Z) : option Migration :=
  if i <? 0 then None else nth_error m (Z.to_nat i).

(** [m[n] = x] for an index in range. *)
Fixpoint store_at (m : Migrations) (n : nat) (x : Migration) : Migrations :=
  match m, n with
  | [], _ => []
  | _ :: rest, O => x :: rest
  | y :: rest, S n' => y :: store_at rest n' x
  end.

(** [func (m Migrations) Len() int] *)
Definition Len (m : Migrations) : Z := Z.of_nat (length m).

(** [func (m Migrations) Less(i, j int) bool], on the indices. *)
Definition Less_at (m : Migrations) (i j : Z) : option bool :=
  match at_index m i, at_index m j with
  | Some a, Some b => Some (Less a b)
  | _, _ => None
  end.

(** [func (m Migrations) Swap(i, j int)]: both elements are read, then both
    are written. *)
Definition Swap (m : Migrations) (i j : Z) : option Migrations :=
  match at_index m i, at_index m j with
  | Some a, Some b =>
      Some (store_at (store_at m (Z.to_nat i) b) (Z.to_nat j) a)
  | _, _ => None
  end.

(* ================================================================== *)
(** * LoadMigrations                                                   *)
(* ================================================================== *)

(** What [LoadMigrations] uses of an [http.File]: the names [Readdir(0)]
    lists and the bytes [ioutil.ReadAll] reads, each or an error. *)
Record File : Type := mkFile {
  Readdir : error + list string;
  ReadAll : error + string
}.

(** [http.FileSystem]: its one method [Open]. *)
Definition FileSystem : Type := string -> error + File.

(** The errors of [LoadMigrations]: one of the file system, passed on as it
    is, or one of its two own messages. *)
Inductive load_error : Type :=
| ErrFileSystem (err : error)
| ErrBadID (description : string) (cause : error)
| ErrCouldNotRead (description : string) (cause : error).

Definition load_Error (e : load_error) : string :=
  match e with
  | ErrFileSystem err => Error err
  | ErrBadID description cause => "bad id: " ++ description ++ ": " ++ Error cause
  | ErrCouldNotRead description cause =>
      "could not read migration: " ++ description ++ ": " ++ Error cause
  end%string.

(** [func readFile(fs http.FileSystem, name string) ([]byte, error)] *)
Definition readFile (fs : FileSystem) (name : string) : error + string :=
  match fs name with
  | inl err => inl err
  | inr file => ReadAll file
  end.

Section Loader.
(** The two library calls of the loop are left open:
    [nameRegexp.FindStringSubmatch] and [fmt.Sscan] into an [int]. *)
Variable FindStringSubmatch : string -> list string.
Variable Sscan : string -> error + Z.

(** The [for _, file := range files] loop, with the slice [ms] built so
    far. *)
Fixpoint loadEach (dirFS : FileSystem) (files : list string) (ms : Migrations)
  : load_error + Migrations :=
  match files with
  | [] => inr ms
  | name :: rest =>
      match FindStringSubmatch name with
      | [_; id_text] =>
          match Sscan id_text with
          | inl err => inl (ErrBadID name err)
          | inr id =>
              match readFile dirFS name with
              | inl err => inl (ErrCouldNotRead name err)
              | inr data =>
                  loadEach dirFS rest
                    (ms ++ [{| ID := id; Description := name; SQL := data |}])
              end
          end
      | _ => loadEach dirFS rest ms
      end
  end.

(** [func LoadMigrations(dirFS http.FileSystem) (Migrations, error)] *)
Definition LoadMigrations (dirFS : FileSystem) : load_error + Migrations :=
  match dirFS "."%string with
  | inl err => inl (ErrFileSystem err)
  | inr dir =>
      match Readdir dir with
      | inl err => inl (ErrFileSystem err)
      | inr files =>
          match loadEach dirFS files [] with
          | inl err => inl err
          | inr ms => inr (Sort ms)
          end
      end
  end.

(** What one name of the listing contributes when everything goes well:
    nothing if the pattern does not match it, else its migration. *)
Definition entry (dirFS : FileSystem) (name : string) : list Migration :=
  match FindStringSubmatch name with
  | [_; id_text] =>
      match Sscan id_text, readFile dirFS name with
      | inr id, inr data =>
          [{| ID := id; Description := name; SQL := data |}]
      | _, _ => []
      end
  | _ => []
  end.

(** The pattern matches the name: [len(match) == 2]. *)
Definition matches (name : string) : Prop :=
  length (FindStringSubmatch name) = 2%nat.
End Loader.

(** A list in ascending order of a key, equal keys allowed. *)
Fixpoint ascending_by {A : Type} (key : A -> Z) (l : list A) : Prop :=
  match l with
  | [] => True
  | x :: rest => Forall (fun y => key x <= key y) rest /\ ascending_by key rest
  end.

(** Migrations in ascending order of id. *)
Definition sorted_by_ID (m : Migrations) : Prop := ascending_by ID m.

(* ================================================================== *)
(** * Reading a qualified name back                                    *)
(* ================================================================== *)

(** The engine's reading of a quoted identifier at the start of a text, the
    opening quote already passed: the identifier and what follows the
    closing quote. *)
Fixpoint read_quoted_prefix (s : string) : option (string * string) :=
  match s with
  | EmptyString => None
  | String a s' =>
      if Ascii.eqb a dquote then
        match s' with
        | EmptyString => Some (EmptyString, EmptyString)
        | String b s'' =>
            if Ascii.eqb b dquote
            then match read_quoted_prefix s'' with
                 | Some (name, rest) => Some (String dquote name, rest)
                 | None => None
                 end
            else Some (EmptyString, s')
        end
      else match read_quoted_prefix s' with
           | Some (name, rest) => Some (String a name, rest)
           | None => None
           end
  end.

(** A schema-qualified name: quoted identifier, dot, quoted identifier. *)
Definition read_qualified (s : string) : option (string * string) :=
  match s with
  | EmptyString => None
  | String a s' =>
      if Ascii.eqb a dquote then
        match read_quoted_prefix s' with
        | Some (schema, String d rest) =>
            if Ascii.eqb d "."%char then
              match read_identifier rest with
              | Some name => Some (schema, name)
              | None => None
              end
            else None
        | _ => None
        end
      else None
  end.

(* ================================================================== *)
(** * A run without failures                                           *)
(* ================================================================== *)

(** No call fails for reasons outside the model. *)
Definition faultless (B : Backend) : Prop :=
  forall call s, fault call s = None.

(** The statement of [m] succeeds in whatever transaction it runs. *)
Definition always_runs `{Backend} (c : Config) (m : Migration) : Prop :=
  forall t, exists w, execute c (SQL m) [] t = inr w.

(* ================================================================== *)
(** * More concrete data: the directory of the package's test          *)
(* ================================================================== *)

Definition is_digit (a : ascii) : bool :=
  (48 <=? nat_of_ascii a)%nat && (nat_of_ascii a <=? 57)%nat.

Definition not_newline (a : ascii) : bool := negb (Ascii.eqb a "010"%char).

(** The pattern [^([\d]+).+.sql$] read byte by byte, which is how it matches
    a name of ASCII bytes.  [dot_sql] is [.sql$], [dots_sql] is [.*.sql$],
    and [digits_then] takes as many digits as leave a match for the rest. *)
Definition dot_sql (s : string) : bool :=
  match s with
  | String a rest => not_newline a && String.eqb rest "sql"
  | EmptyString => false
  end.

Fixpoint dots_sql (s : string) : bool :=
  match s with
  | EmptyString => false
  | String a rest => (not_newline a && dots_sql rest) || dot_sql s
  end.

Definition plus_dot_sql (s : string) : bool :=
  match s with
  | String a rest => not_newline a && dots_sql rest
  | EmptyString => false
  end.

Fixpoint digits_then (s : string) : option string :=
  match s with
  | EmptyString => None
  | String a rest =>
      if is_digit a then
        match digits_then rest with
        | Some more => Some (String a more)
        | None => if plus_dot_sql rest then Some (str1 a) else None
        end
      else None
  end.

Definition ascii_name_match (name : string) : list string :=
  match digits_then name with
  | Some id_text => [name; id_text]
  | None => []
  end.

(** [fmt.Sscan] into an [int] for a text of decimal digits that does not
    begin with a zero. *)
Definition scan_decimal (text : string) : error + Z :=
  (fix scan (s : string) (acc : Z) : error + Z :=
     match s with
     | EmptyString => inr acc
     | String a rest =>
         if is_digit a then scan rest (10 * acc + Z.of_nat (nat_of_ascii a) - 48)
         else inl (ErrDriver "expected integer")
     end) text 0.

Definition plain_file (data : string) : File :=
  {| Readdir := inl (ErrDriver "not a directory"); ReadAll := inr data |}.

(** The files of [TestLoadMigrations] in a directory that lists [names]. *)
Definition test_files (names : list string) : FileSystem := fun name =>
  if String.eqb name "." then
    inr {| Readdir := inr names;
           ReadAll := inl (ErrDriver "is a directory") |}
  else if String.eqb name "1_foo.sql" then inr (plain_file "SELECT 1")
  else if String.eqb name "2_bar.sql" then inr (plain_file "SELECT 2")
  else if String.eqb name "10_sort.sql" then inr (plain_file "SELECT 10")
  else if String.eqb name "invalid.sql" then inr (plain_file "SELECT 3")
  else inl (ErrDriver "file does not exist").

(** The directory of the test, listed in no particular order. *)
Definition test_listing : list string :=
  ["10_sort.sql"; "invalid.sql"; "2_bar.sql"; "1_foo.sql"]%string.

Definition test_dir : FileSystem := test_files test_listing.

(** The same directory listed in the opposite order. *)
Definition test_dir_relisted : FileSystem := test_files (rev test_listing).

(** The same directory with a file that does not match the pattern made
    unreadable. *)
Definition test_dir_locked : FileSystem := fun name =>
  if String.eqb name "invalid.sql" then inl (ErrDriver "permission denied")
  else test_dir name.

(** A directory with the first two migrations, the second listed first. *)
Definition test_dir_pair : FileSystem :=
  test_files ["2_bar.sql"; "1_foo.sql"]%string.

(** A directory that lists a file which cannot be opened. *)
Definition test_dir_gone : FileSystem :=
  test_files ["1_foo.sql"; "3_gone.sql"; "2_bar.sql"]%string.

(** A backend on which nothing fails: every statement is added to the
    journal. *)
Definition Steady : Backend := {|
  Objects := list string;
  other_exec sql args s :=
    inr {| objects := objects s ++ [sql]; bookkeeping := bookkeeping s |};
  other_query sql s := inl (ErrDriver "pq: syntax error");
  fault call s := None;
  latency call s := 1
|}.

Definition steady_start : @Conn Steady :=
  @mkConn Steady (@mkStore (@Objects Steady) [] None) None 0 [].

(** Closed goals about the model are settled by running it. *)
Ltac run := vm_compute; reflexivity.

(* ================================================================== *)
(** * Validation                                                       *)
(* ================================================================== *)

Section Validation.

Lemma Migration_Valid_ok (x : Migration) :
  Migration_Valid x = None <->
  1 <= ID x /\ Description x <> EmptyString /\ SQL x <> EmptyString.
Proof.
  unfold Migration_Valid.
  destruct (Z.ltb_spec (ID x) 1);
    destruct (Description x); destruct (SQL x); simpl;
    intuition (try discriminate; try congruence; try lia).
Qed.

(** The loop started at index [i] accepts exactly the lists that count
    upwards from [i+1] and whose elements are valid one by one. *)
Lemma Migrations_Valid_from_ok (m : Migrations) : forall i,
  Migrations_Valid_from i m = None <->
  (forall (n : nat) (x : Migration),
      nth_error m n = Some x -> ID x = i + Z.of_nat n + 1)
  /\ individually_valid m.
Proof.
  induction m as [|mi rest IH]; intros i; simpl.
  - split; [intros _|reflexivity].
    split; [intros [|n] x Hn; discriminate | constructor].
  - destruct (Z.eqb_spec (ID mi) (i + 1)) as [Hid|Hid]; simpl.
    + destruct (Migration_Valid mi) as [err|] eqn:Hv.
      * split; [discriminate|].
        intros [_ Hall]. inversion Hall; congruence.
      * rewrite IH. split.
        -- intros [Hd Hall]. split.
           ++ intros [|n] x Hn; simpl in Hn.
              ** injection Hn as <-. lia.
              ** apply Hd in Hn. lia.
           ++ constructor; assumption.
        -- intros [Hd Hall]. split.
           ++ intros n x Hn. specialize (Hd (S n) x Hn). lia.
           ++ inversion Hall; assumption.
    + split; [discriminate|].
      intros [Hd _]. specialize (Hd 0%nat mi eq_refl). lia.
Qed.

Lemma Migrations_Valid_ok (m : Migrations) :
  Migrations_Valid m = None <-> dense m /\ individually_valid m.
Proof.
  unfold Migrations_Valid. rewrite Migrations_Valid_from_ok.
  unfold dense. split; intros [Hd Hall]; split; try assumption;
    intros n x Hn; specialize (Hd n x Hn); lia.
Qed.

(** In a dense list every number from 1 to the length is the id of some
    element, and no id is larger than the length. *)
Lemma dense_covers (m : Migrations) (k : Z) :
  dense m -> 1 <= k <= Z.of_nat (length m) -> In k (IDs m).
Proof.
  intros Hd Hk.
  destruct (nth_error m (Z.to_nat (k - 1))) as [x|] eqn:Hn.
  - pose proof (Hd _ _ Hn) as Hid.
    apply nth_error_In in Hn. unfold IDs.
    replace k with (ID x) by lia. apply in_map. exact Hn.
  - apply nth_error_None in Hn. lia.
Qed.

Lemma dense_bounded (m : Migrations) (x : Migration) :
  dense m -> In x m -> 1 <= ID x <= Z.of_nat (length m).
Proof.
  intros Hd Hin. apply In_nth_error in Hin as [n Hn].
  pose proof (Hd _ _ Hn) as Hid.
  assert (n < length m)%nat by (apply nth_error_Some; congruence). lia.
Qed.

Lemma dense_IDs (m : Migrations) :
  dense m <-> IDs m = map Z.of_nat (seq 1 (length m)).
Proof.
  unfold dense, IDs. split.
  - intros Hd. apply nth_error_ext. intros n.
    rewrite !nth_error_map.
    destruct (nth_error m n) as [x|] eqn:Hn; simpl.
    + assert (Hlt : (n < length m)%nat) by (apply nth_error_Some; congruence).
      rewrite (nth_error_nth' _ 0%nat) by (rewrite length_seq; exact Hlt).
      rewrite seq_nth by exact Hlt. simpl.
      rewrite (Hd _ _ Hn). f_equal. lia.
    + apply nth_error_None in Hn.
      rewrite (proj2 (nth_error_None _ _)); [reflexivity|].
      rewrite length_seq. exact Hn.
  - intros Hids n x Hn.
    assert (Hlt : (n < length m)%nat) by (apply nth_error_Some; congruence).
    assert (He : nth_error (map ID m) n = Some (ID x))
      by (rewrite nth_error_map, Hn; reflexivity).
    rewrite Hids, nth_error_map in He.
    rewrite (nth_error_nth' _ 0%nat) in He by (rewrite length_seq; exact Hlt).
    rewrite seq_nth in He by exact Hlt. simpl in He.
    injection He as He. lia.
Qed.

(** A list that counts upwards is already in the order [Sort] produces. *)
Lemma Sort_counting (m : Migrations) : forall i,
  (forall (n : nat) (x : Migration),
      nth_error m n = Some x -> ID x = i + Z.of_nat n + 1) ->
  Sort m = m.
Proof.
  induction m as [|a rest IH]; intros i Hd; [reflexivity|].
  simpl. rewrite (IH (i + 1)).
  - destruct rest as [|b rest']; [reflexivity|].
    simpl. unfold Less.
    pose proof (Hd 0%nat a eq_refl) as Ha.
    pose proof (Hd 1%nat b eq_refl) as Hb.
    destruct (Z.ltb_spec (ID b) (ID a)); [lia|reflexivity].
  - intros n x Hn. specialize (Hd (S n) x Hn). lia.
Qed.

Lemma Sort_dense (m : Migrations) : dense m -> Sort m = m.
Proof.
  intros Hd. apply (Sort_counting m 0).
  intros n x Hn. rewrite (Hd n x Hn). lia.
Qed.


(** The two test migrations presented in the wrong order. *)
Lemma swapped_pair_facts :
  individually_valid [create_table; create_schema]
  /\ Sort [create_table; create_schema] = [create_schema; create_table]
  /\ dense [create_schema; create_table].
Proof.
  split; [|split].
  - repeat constructor.
  - reflexivity.
  - intros [|[|[|n]]] x Hn; simpl in Hn; try discriminate;
      injection Hn as <-; reflexivity.
Qed.

(** C3 as stated fails: the ids of
    [[create_table; create_schema]] are exactly 1 and 2, both entries are
    valid and the list sorted by id is dense, yet [Migrations.Valid] rejects
    the list, because it compares ids with positions in the order
    presented. *)
Lemma Migrations_Valid_rejects_unsorted :
  individually_valid [create_table; create_schema]
  /\ dense (Sort [create_table; create_schema])
  /\ Migrations_Valid [create_table; create_schema]
     = Some (ErrUnexpectedID 2 1).
Proof.
  destruct swapped_pair_facts as (Hv & Hs & Hd).
  split; [exact Hv|]. split; [rewrite Hs; exact Hd|reflexivity].
Qed.

(** C3, amended: for a list of individually valid migrations,
    [Migrations.Valid] succeeds if and only if the list as presented (it is
    not sorted first) has id [i+1] at every position [i]; a list it accepts
    is its own sorted form; a list whose ids are 1..N in ascending order is
    accepted; a list that misses a number between 1 and one of its ids (so
    also one that starts above 1) is rejected with an error. *)
Theorem Migrations_Valid_dense_as_presented (m : Migrations) :
  individually_valid m ->
  (Migrations_Valid m = None <-> dense m)
  /\ (Migrations_Valid m = None -> Sort m = m /\ dense (Sort m))
  /\ (IDs m = map Z.of_nat (seq 1 (length m)) -> Migrations_Valid m = None)
  /\ ((exists (x : Migration) (k : Z),
          In x m /\ 1 <= k <= ID x /\ ~ In k (IDs m)) ->
      exists err, Migrations_Valid m = Some err)
  /\ (forall (x : Migration) (rest : Migrations),
        m = x :: rest -> 1 < ID x ->
        Migrations_Valid m = Some (ErrUnexpectedID (ID x) 1)).
Proof.
  intros Hall. split; [|split; [|split; [|split]]].
  - rewrite Migrations_Valid_ok. tauto.
  - intros Hv. apply Migrations_Valid_ok in Hv as [Hd _].
    rewrite (Sort_dense m Hd). split; [reflexivity|exact Hd].
  - intros Hids. apply Migrations_Valid_ok. split; [|exact Hall].
    apply dense_IDs. exact Hids.
  - intros (x & k & Hin & Hk & Hmiss).
    destruct (Migrations_Valid m) as [err|] eqn:Hv; [eauto|].
    exfalso. apply Migrations_Valid_ok in Hv as [Hd _].
    apply Hmiss. apply dense_covers; [exact Hd|].
    pose proof (dense_bounded m x Hd Hin). lia.
  - intros x rest -> Hx. unfold Migrations_Valid. cbn.
    destruct (Z.eqb_spec (ID x) 1); [lia|reflexivity].
Qed.

Lemma Migrations_Valid_dense_as_presented_witness :
  individually_valid [create_schema; create_table]
  /\ Migrations_Valid [create_schema; create_table] = None.
Proof.
  assert (Hv : individually_valid [create_schema; create_table])
    by (repeat constructor).
  split; [exact Hv|].
  apply (Migrations_Valid_dense_as_presented _ Hv). reflexivity.
Defined.

(** What the loop can return when it starts at a position [i >= 0]: the
    element it stops at has either the wrong id for its position, or the
    right id, which is at least 1, and an empty field. *)
Lemma Migrations_Valid_from_errors (m : Migrations) : forall i err,
  0 <= i ->
  Migrations_Valid_from i m = Some err ->
  (exists got want, err = ErrUnexpectedID got want /\ got <> want)
  \/ (exists id, 1 <= id /\
        (err = ErrInvalidMigration id ErrMissingDescription
         \/ err = ErrInvalidMigration id ErrMissingSQL)).
Proof.
  induction m as [|mi rest IH]; intros i err Hi; simpl; [discriminate|].
  destruct (Z.eqb_spec (ID mi) (i + 1)) as [Hid|Hid]; simpl.
  - unfold Migration_Valid.
    destruct (Z.ltb_spec (ID mi) 1) as [Hlt|Hge]; [lia|].
    destruct (is_empty (Description mi)).
    + intros [= <-]. right. exists (ID mi). tauto.
    + destruct (is_empty (SQL mi)).
      * intros [= <-]. right. exists (ID mi). tauto.
      * apply IH. lia.
  - intros [= <-]. left. eauto.
Qed.

(** The loop stops at the first element whose id is not its position. *)
Lemma Migrations_Valid_from_app (pre : Migrations) : forall i post,
  Migrations_Valid_from i pre = None ->
  Migrations_Valid_from i (pre ++ post)
  = Migrations_Valid_from (i + Z.of_nat (length pre)) post.
Proof.
  induction pre as [|a pre IH]; intros i post; simpl.
  - intros _. f_equal. lia.
  - destruct (negb (ID a =? i + 1)); [discriminate|].
    destruct (Migration_Valid a); [discriminate|].
    intros Hv. rewrite (IH _ _ Hv). f_equal. lia.
Qed.

(** C10: [Migrations.Valid] never returns the "invalid id" error of
    [Migration.Valid], neither bare nor wrapped: whatever it returns is an
    unexpected-id error or wraps a missing description or a missing
    statement of a migration whose id is at least 1.  When the loop reaches
    a migration with an id below 1, the error is the unexpected-id error
    for that migration and its position. *)
Theorem Migrations_Valid_never_invalid_id :
  (forall (m : Migrations) (err : error),
      Migrations_Valid m = Some err ->
      (forall id, err <> ErrInvalidID id)
      /\ (forall id id', err <> ErrInvalidMigration id (ErrInvalidID id'))
      /\ ((exists got want, err = ErrUnexpectedID got want /\ got <> want)
          \/ (exists id, 1 <= id /\
                (err = ErrInvalidMigration id ErrMissingDescription
                 \/ err = ErrInvalidMigration id ErrMissingSQL))))
  /\ (forall (pre post : Migrations) (x : Migration),
        Migrations_Valid pre = None ->
        ID x < 1 ->
        Migrations_Valid (pre ++ x :: post)
        = Some (ErrUnexpectedID (ID x) (Z.of_nat (length pre) + 1))).
Proof.
  split.
  - intros m err Hv.
    apply Migrations_Valid_from_errors in Hv as Hshape; [|lia].
    repeat split; [| |exact Hshape];
      destruct Hshape as [(got & want & -> & _)|(id0 & _ & [->| ->])];
      intros; discriminate.
  - intros pre post x Hpre Hx. unfold Migrations_Valid in *.
    rewrite (Migrations_Valid_from_app _ _ _ Hpre). simpl.
    destruct (Z.eqb_spec (ID x) (Z.of_nat (length pre) + 1)) as [He|Hne];
      [lia|reflexivity].
Qed.

Lemma Migrations_Valid_never_invalid_id_witness :
  Migrations_Valid
    ([create_schema] ++ {| ID := 0; Description := EmptyString;
                           SQL := EmptyString |} :: [])
  = Some (ErrUnexpectedID 0 2)
  /\ ErrUnexpectedID 2 1 <> ErrInvalidID 2.
Proof.
  split.
  - apply (proj2 Migrations_Valid_never_invalid_id [create_schema] []
             {| ID := 0; Description := EmptyString; SQL := EmptyString |});
      [reflexivity|reflexivity].
  - apply (proj1 Migrations_Valid_never_invalid_id
             [create_table; create_schema] (ErrUnexpectedID 2 1));
      reflexivity.
Defined.
End Validation.

(* ================================================================== *)
(** * quoteIdentifier                                                  *)
(* ================================================================== *)

Section Quoting.

Lemma IndexByte_range (s : string) (b : ascii) :
  -1 <= IndexByte s b < Z.of_nat (String.length s).
Proof.
  induction s as [|a s IH]; simpl; [lia|].
  destruct (Ascii.eqb a b); [lia|].
  destruct (Z.ltb_spec (IndexByte s b) 0); lia.
Qed.

(** The slice up to the index Go computes is the text before the first
    NUL; without a NUL the text is kept whole. *)
Lemma slice_at_IndexByte (s : string) :
  (if IndexByte s NUL >? -1 then slice_to s (IndexByte s NUL) else s)
  = truncate_at_NUL s.
Proof.
  induction s as [|a s IH]; [reflexivity|].
  simpl. destruct (Ascii.eqb a NUL); [reflexivity|].
  pose proof (IndexByte_range s NUL) as Hr.
  destruct (Z.ltb_spec (IndexByte s NUL) 0) as [Hneg|Hpos].
  - simpl. rewrite <- IH.
    destruct (Z.gtb_spec (IndexByte s NUL) (-1)); [lia|reflexivity].
  - destruct (Z.gtb_spec (IndexByte s NUL + 1) (-1)); [|lia].
    rewrite <- IH.
    destruct (Z.gtb_spec (IndexByte s NUL) (-1)); [|lia].
    unfold slice_to.
    replace (Z.to_nat (IndexByte s NUL + 1))
      with (S (Z.to_nat (IndexByte s NUL))) by lia.
    reflexivity.
Qed.

Lemma prefix_one_byte (b a : ascii) (s : string) :
  prefix (str1 b) (String a s) = Ascii.eqb a b.
Proof.
  unfold str1. cbn [prefix]. destruct (ascii_dec b a) as [->|Hne].
  - rewrite Ascii.eqb_refl. destruct s; reflexivity.
  - destruct (Ascii.eqb_spec a b); [congruence|reflexivity].
Qed.

(** Replacing the one-byte text of a quote by two quotes doubles every
    quote. *)
Lemma ReplaceAll_doubles (s : string) :
  ReplaceAll s (str1 dquote) (str1 dquote ++ str1 dquote) = double_quotes s.
Proof.
  unfold ReplaceAll. induction s as [|a s IH]; [reflexivity|].
  cbn [replace_from double_quotes]. rewrite prefix_one_byte.
  change (String.length (str1 dquote) - 1)%nat with 0%nat.
  rewrite IH. destruct (Ascii.eqb a dquote); reflexivity.
Qed.

Lemma read_quoted_body_doubled (s : string) :
  read_quoted_body (double_quotes s ++ str1 dquote) = Some s.
Proof.
  induction s as [|a s IH]; [reflexivity|].
  cbn [double_quotes]. destruct (Ascii.eqb_spec a dquote) as [->|Hne].
  - cbn [String.append read_quoted_body]. rewrite Ascii.eqb_refl.
    rewrite IH. reflexivity.
  - cbn [String.append read_quoted_body].
    destruct (Ascii.eqb_spec a dquote); [contradiction|].
    rewrite IH. reflexivity.
Qed.

Lemma double_quotes_paired (s : string) :
  quotes_paired (double_quotes s) = true.
Proof.
  induction s as [|a s IH]; [reflexivity|].
  cbn [double_quotes]. destruct (Ascii.eqb_spec a dquote) as [->|Hne].
  - cbn [quotes_paired]. rewrite Ascii.eqb_refl. exact IH.
  - cbn [quotes_paired].
    destruct (Ascii.eqb_spec a dquote); [contradiction|exact IH].
Qed.

(** [truncate_at_NUL] keeps the text in front of the first NUL: the result
    is free of NUL, and what was cut off is nothing or begins with NUL. *)
Lemma truncate_at_NUL_spec (s : string) :
  free_of NUL (truncate_at_NUL s) = true
  /\ (s = truncate_at_NUL s
      \/ exists rest, s = (truncate_at_NUL s ++ String NUL rest)%string).
Proof.
  induction s as [|a s [IHfree IHcut]]; [split; [reflexivity|left; reflexivity]|].
  cbn [truncate_at_NUL]. destruct (Ascii.eqb_spec a NUL) as [->|Hne].
  - split; [reflexivity|]. right. exists s. reflexivity.
  - cbn [free_of]. destruct (Ascii.eqb_spec a NUL); [contradiction|].
    split; [exact IHfree|].
    destruct IHcut as [Heq|[rest Heq]].
    + left. congruence.
    + right. exists rest. cbn [String.append]. congruence.
Qed.

(** C8: [quoteIdentifier] returns one quote, the input cut at its first NUL
    byte with every quote in it doubled, and one quote; the engine reads
    that text back as exactly the cut input, and no quote between the outer
    two stands alone. *)
Theorem quoteIdentifier_spec (name : string) :
  quoteIdentifier name
  = String dquote (double_quotes (truncate_at_NUL name) ++ str1 dquote)
  /\ free_of NUL (truncate_at_NUL name) = true
  /\ (name = truncate_at_NUL name
      \/ exists rest,
           name = (truncate_at_NUL name ++ String NUL rest)%string)
  /\ read_identifier (quoteIdentifier name) = Some (truncate_at_NUL name)
  /\ quotes_paired (double_quotes (truncate_at_NUL name)) = true.
Proof.
  assert (Hq : quoteIdentifier name
               = String dquote
                   (double_quotes (truncate_at_NUL name) ++ str1 dquote)).
  { unfold quoteIdentifier. cbv zeta.
    rewrite slice_at_IndexByte, ReplaceAll_doubles. reflexivity. }
  destruct (truncate_at_NUL_spec name) as [Hfree Hcut].
  repeat split; try assumption.
  - rewrite Hq. cbn [read_identifier]. rewrite Ascii.eqb_refl.
    apply read_quoted_body_doubled.
  - apply double_quotes_paired.
Qed.

(** The default names, a name with a quote in it and a name with a NUL. *)
Example quoteIdentifier_examples :
  quoteIdentifier "migrations" = String dquote ("migrations" ++ str1 dquote)
  /\ quoteIdentifier ("a" ++ str1 dquote ++ "b")
     = String dquote ("a" ++ str1 dquote ++ str1 dquote ++ "b" ++ str1 dquote)
  /\ quoteIdentifier ("ab" ++ str1 NUL ++ "; DROP")
     = String dquote ("ab" ++ str1 dquote).
Proof. repeat split. Qed.
End Quoting.

(* ================================================================== *)
(** * Verification of the recorded history                             *)
(* ================================================================== *)

Section Verification.

Lemma Migration_eqb_eq (a b : Migration) :
  Migration_eqb a b = true <-> a = b.
Proof.
  unfold Migration_eqb. destruct a as [i d q], b as [i' d' q']; simpl.
  rewrite !andb_true_iff, Z.eqb_eq, !String.eqb_eq.
  split; [intros [[-> ->] ->]; reflexivity|intros [= -> -> ->]; auto].
Qed.

Lemma Migration_eqb_refl (a : Migration) : Migration_eqb a a = true.
Proof. apply Migration_eqb_eq. reflexivity. Qed.

Lemma Migration_eqb_neq (a b : Migration) :
  a <> b -> Migration_eqb a b = false.
Proof.
  intros Hne. destruct (Migration_eqb a b) eqn:He; [|reflexivity].
  apply Migration_eqb_eq in He. contradiction.
Qed.

(** A history that is a prefix of the candidate is consumed whole. *)
Lemma verify_prefix (R S : Migrations) : verify R (R ++ S) = inr S.
Proof.
  unfold verify. induction R as [|r R IH]; simpl; [reflexivity|].
  rewrite Migration_eqb_refl. exact IH.
Qed.

(** Success means the history is a prefix of the candidate and the result
    is what follows it. *)
Lemma verify_sound (R : Migrations) : forall C S,
  verify R C = inr S -> C = R ++ S.
Proof.
  unfold verify. induction R as [|r R IH]; simpl; intros C S.
  - intros [= ->]. reflexivity.
  - destruct C as [|m0 C]; [discriminate|].
    destruct (Migration_eqb r m0) eqn:He; simpl; [|discriminate].
    apply Migration_eqb_eq in He as ->.
    intros Hv. rewrite (IH _ _ Hv). reflexivity.
Qed.

(** The common part of history and candidate is passed over. *)
Lemma verify_skip (P R C : Migrations) :
  verify (P ++ R) (P ++ C) = verify R C.
Proof.
  unfold verify. induction P as [|p P IH]; simpl; [reflexivity|].
  rewrite Migration_eqb_refl. exact IH.
Qed.

(** C1: the comparison walks the candidate head by head along the recorded
    history.  If the history equals the first [|R|] elements of the
    candidate, the result is the candidate without them.  If the candidate
    ends where the history still has the migration [r], the error is the
    unknown-migration error with the id of [r].  If history and candidate
    agree up to a position where the history has [r] and the candidate has
    a different migration, the error is the modified-migration error with
    the id of [r]. *)
Theorem verify_head_by_head (R C : Migrations) :
  (firstn (length R) C = R -> verify R C = inr (skipn (length R) C))
  /\ (forall r R',
        R = C ++ r :: R' -> verify R C = inl (ErrUnknownMigration (ID r)))
  /\ (forall P r R' m C',
        R = P ++ r :: R' -> C = P ++ m :: C' -> m <> r ->
        verify R C = inl (ErrModifiedMigration (ID r))).
Proof.
  split; [|split].
  - intros Hpre.
    rewrite <- (firstn_skipn (length R) C) at 1.
    rewrite Hpre. apply verify_prefix.
  - intros r R' ->.
    rewrite <- (app_nil_r C) at 2. rewrite verify_skip. reflexivity.
  - intros P r R' m C' -> -> Hne. rewrite verify_skip.
    unfold verify. simpl.
    rewrite (Migration_eqb_neq r m) by congruence. reflexivity.
Qed.

Lemma verify_head_by_head_witness :
  verify [create_schema] [create_schema; create_table] = inr [create_table]
  /\ verify [create_schema] [] = inl (ErrUnknownMigration 1)
  /\ verify [create_schema] [create_schema_edited]
     = inl (ErrModifiedMigration 1).
Proof.
  split; [|split].
  - apply (proj1 (verify_head_by_head [create_schema]
                    [create_schema; create_table])).
    reflexivity.
  - apply (proj1 (proj2 (verify_head_by_head [create_schema] []))
             create_schema []).
    reflexivity.
  - apply (proj2 (proj2 (verify_head_by_head [create_schema]
                           [create_schema_edited]))
             [] create_schema [] create_schema_edited []);
      [reflexivity|reflexivity|discriminate].
Defined.
End Verification.

(* ================================================================== *)
(** * The driver calls                                                 *)
(* ================================================================== *)

Section DriverFacts.
Context `{B : Backend}.
Variable c : Config.

Lemma bind_run {A C : Type} (m : M A) (f : A -> M C) k r k' :
  bind m f k = (r, k') ->
  (exists e, m k = (inl e, k') /\ r = inl e)
  \/ (exists a k1, m k = (inr a, k1) /\ f a k1 = (r, k')).
Proof.
  unfold bind. destruct (m k) as [[e|a] k1]; intros Hrun.
  - injection Hrun as <- <-. left. eauto.
  - right. eauto.
Qed.

Lemma wrapping_run {A : Type} (wrap : error -> error) (m : M A) k r k' :
  wrapping wrap m k = (r, k') ->
  (exists e, m k = (inl e, k') /\ r = inl (wrap e))
  \/ (exists a, m k = (inr a, k') /\ r = inr a).
Proof.
  unfold wrapping. destruct (m k) as [[e|a] k1]; intros Hrun;
    injection Hrun as <- <-; eauto.
Qed.

Lemma inside_ret {A : Type} (a : A) : inside (ret a).
Proof.
  intros k r k' [= <- <-]. split; [reflexivity|]. split; [|auto].
  intros [s w] Ht. exists w. exact Ht.
Qed.

Lemma inside_fail {A : Type} (e : error) : inside (@fail _ A e).
Proof.
  intros k r k' [= <- <-]. split; [reflexivity|]. split; [|auto].
  intros [s w] Ht. exists w. exact Ht.
Qed.

Lemma inside_time_Now : inside time_Now.
Proof.
  intros k r k' [= <- <-]. split; [reflexivity|]. split; [|auto].
  intros [s w] Ht. exists w. exact Ht.
Qed.

Lemma inside_bind {A C : Type} (m : M A) (f : A -> M C) :
  inside m -> (forall a, inside (f a)) -> inside (bind m f).
Proof.
  intros Hm Hf k r k' Hrun.
  apply bind_run in Hrun as [(e & Hk & _)|(a & k1 & Hk & Hk1)].
  - exact (Hm _ _ _ Hk).
  - destruct (Hm _ _ _ Hk) as (Hd & Hs & Hn).
    destruct (Hf a _ _ _ Hk1) as (Hd' & Hs' & Hn').
    split; [congruence|]. split.
    + intros t Ht. destruct (Hs t Ht) as [w Hw].
      destruct (Hs' _ Hw) as [w' Hw']. exists w'. exact Hw'.
    + auto.
Qed.

Lemma inside_wrapping {A : Type} (wrap : error -> error) (m : M A) :
  inside m -> inside (wrapping wrap m).
Proof.
  intros Hm k r k' Hrun.
  apply wrapping_run in Hrun as [(e & Hk & _)|(a & Hk & _)];
    exact (Hm _ _ _ Hk).
Qed.

Lemma inside_tx_Exec (sql : string) (args : list Value) :
  inside (tx_Exec c sql args).
Proof.
  intros k r k'. unfold tx_Exec, observe, with_tx. cbn.
  destruct (tx k) as [t|] eqn:Ht.
  - destruct (fault _ _).
    + intros [= <- <-]. cbn; try rewrite Ht. split; [reflexivity|].
      split; [|discriminate]. intros t' [= <-]. exists (working t).
      destruct t; reflexivity.
    + destruct (execute c sql args t) as [e|w].
      * intros [= <- <-]. cbn; try rewrite Ht. split; [reflexivity|].
        split; [|discriminate]. intros t' [= <-]. exists (working t).
        destruct t; reflexivity.
      * intros [= <- <-]. cbn. split; [reflexivity|].
        split; [|discriminate]. intros t' [= <-]. exists w. reflexivity.
  - intros [= <- <-]. cbn; try rewrite Ht. split; [reflexivity|].
    split; [discriminate|reflexivity].
Qed.

Lemma inside_tx_Query (sql : string) : inside (tx_Query c sql).
Proof.
  intros k r k'. unfold tx_Query, observe. cbn.
  destruct (tx k) as [t|] eqn:Ht.
  - destruct (fault _ _); [|destruct (answer c sql t)];
      intros [= <- <-]; cbn; try rewrite Ht; (split; [reflexivity|]);
      (split; [|discriminate]); intros t' [= <-]; exists (working t);
      destruct t; reflexivity.
  - intros [= <- <-]. cbn; try rewrite Ht. split; [reflexivity|].
    split; [discriminate|reflexivity].
Qed.

Lemma inside_init : inside (init c).
Proof. apply inside_tx_Exec. Qed.

Lemma inside_verifyMigrations (ms : Migrations) :
  inside (verifyMigrations c ms).
Proof.
  unfold verifyMigrations. apply inside_bind; [apply inside_tx_Query|].
  intros rows. destruct (verifyRows _ _); [apply inside_fail|].
  destruct (rows_Err rows); [apply inside_fail|apply inside_ret].
Qed.

Lemma inside_applyEach (sql : string) (ms : Migrations) :
  inside (applyEach c sql ms).
Proof.
  induction ms as [|m rest IH]; cbn [applyEach]; [apply inside_ret|].
  apply inside_bind; [apply inside_time_Now|intros start].
  apply inside_bind; [apply inside_wrapping, inside_tx_Exec|intros _].
  apply inside_bind; [apply inside_time_Now|intros now].
  apply inside_bind; [apply inside_wrapping, inside_tx_Exec|intros _].
  exact IH.
Qed.

Lemma inside_quiet {A : Type} (m : M A) : inside m -> quiet m.
Proof. intros Hm k r k' Hrun. exact (proj1 (Hm _ _ _ Hrun)). Qed.

(** A commit that fails and a rollback leave the durable store alone and
    close the transaction. *)
Lemma tx_Commit_run k r k' :
  tx_Commit k = (r, k') ->
  tx k' = None
  /\ (forall e, r = inl e -> durable k' = durable k)
  /\ (r = inr tt ->
      exists t, tx k = Some t /\ durable k' = working t
                /\ fault CallCommit (working t) = None)
  /\ trace k' = trace k ++ [CallCommit].
Proof.
  unfold tx_Commit, observe, with_tx. cbn.
  destruct (tx k) as [t|] eqn:Ht.
  - destruct (fault CallCommit (working t)) eqn:Hf; intros [= <- <-]; cbn.
    + repeat split; try reflexivity; discriminate.
    + repeat split; try reflexivity; try discriminate. eauto.
  - intros [= <- <-]. cbn; try rewrite Ht.
    repeat split; try reflexivity; discriminate.
Qed.

Lemma tx_Rollback_run k :
  durable (snd (tx_Rollback k)) = durable k
  /\ tx (snd (tx_Rollback k)) = None
  /\ trace (snd (tx_Rollback k)) = trace k ++ [CallRollback].
Proof.
  unfold tx_Rollback, observe, with_tx. cbn.
  destruct (tx k) as [t|] eqn:Ht; cbn; try rewrite Ht; auto.
Qed.

Lemma db_Begin_run k r k' :
  db_Begin k = (r, k') ->
  durable k' = durable k
  /\ trace k' = trace k ++ [CallBegin]
  /\ (r = inr tt ->
      fault CallBegin (durable k) = None
      /\ exists s, tx k' = Some {| started := s; working := durable k |}).
Proof.
  unfold db_Begin, observe, with_tx. cbn.
  destruct (fault CallBegin (durable k)); intros [= <- <-]; cbn.
  - repeat split; discriminate.
  - repeat split. eauto.
Qed.

(** ** What a statement does to the bookkeeping table *)

Lemma execute_init (t : Tx) :
  execute c (init_sql c) [] t = inr (create_if_absent (working t)).
Proof. unfold execute. rewrite String.eqb_refl. reflexivity. Qed.

Lemma execute_insert (t : Tx) (i : Z) (d q : string) (n : Z) :
  execute c (insert_sql c) [VInt i; VText d; VText q; VSeconds n] t
  = insert_row {| row_id := i; row_description := d; row_sql := q;
                  row_duration := n; row_created := started t |} (working t).
Proof.
  unfold execute. rewrite andb_false_r, String.eqb_refl. reflexivity.
Qed.

(** A statement without arguments that succeeds keeps an existing
    bookkeeping table as it is, provided the backend's own statements do. *)
Lemma execute_plain (t : Tx) (sql : string) w rows :
  keeps_bookkeeping B ->
  execute c sql [] t = inr w ->
  bookkeeping (working t) = Some rows ->
  bookkeeping w = Some rows.
Proof.
  intros Hframe. unfold execute.
  destruct (String.eqb sql (init_sql c)); cbn [andb].
  - intros [= <-] Hrows. unfold create_if_absent. rewrite Hrows. exact Hrows.
  - destruct (String.eqb sql (insert_sql c)); [discriminate|].
    intros Hrun Hrows. rewrite (Hframe _ _ _ _ Hrun). exact Hrows.
Qed.

Lemma tx_Exec_run (sql : string) (args : list Value) k r k' :
  tx_Exec c sql args k = (r, k') ->
  trace k' = trace k ++ [CallExec sql args]
  /\ (r = inr tt ->
      exists t w,
        tx k = Some t
        /\ fault (CallExec sql args) (working t) = None
        /\ execute c sql args t = inr w
        /\ tx k' = Some {| started := started t; working := w |}).
Proof.
  unfold tx_Exec, observe, with_tx. cbn.
  destruct (tx k) as [t|] eqn:Ht.
  - destruct (fault (CallExec sql args) (working t)) eqn:Hf.
    + intros [= <- <-]. cbn. split; [reflexivity|discriminate].
    + destruct (execute c sql args t) as [e|w] eqn:He;
        intros [= <- <-]; cbn; (split; [reflexivity|]);
        [discriminate|].
      intros _. exists t, w. auto.
  - intros [= <- <-]. cbn. split; [reflexivity|discriminate].
Qed.

Lemma tx_Query_run (sql : string) k r k' :
  tx_Query c sql k = (r, k') ->
  trace k' = trace k ++ [CallQuery sql]
  /\ tx k' = tx k
  /\ (forall rows, r = inr rows ->
      exists t,
        tx k = Some t
        /\ fault (CallQuery sql) (working t) = None
        /\ answer c sql t = inr rows).
Proof.
  unfold tx_Query, observe. cbn.
  destruct (tx k) as [t|] eqn:Ht.
  - destruct (fault (CallQuery sql) (working t)) eqn:Hf.
    + intros [= <- <-]. cbn; try rewrite Ht. repeat split. discriminate.
    + destruct (answer c sql t) as [e|rows] eqn:He;
        intros [= <- <-]; cbn; try rewrite Ht; repeat split;
        [discriminate|].
      intros rows' [= <-]. exists t. auto.
  - intros [= <- <-]. cbn; try rewrite Ht. repeat split. discriminate.
Qed.

(** ** The loop of [applyMigrations] *)

(** The calls of the loop: a pair of calls for each migration that went
    through, then nothing more, or the one or two calls of the migration
    that failed. *)
Lemma applyEach_trace (ms : Migrations) : forall k r k',
  applyEach c (insert_sql c) ms k = (r, k') ->
  exists (pre : Migrations) (ds : list Z) (tail : list Call),
    length ds = length pre
    /\ trace k' = trace k ++ flat_map (calls_of c) (combine pre ds) ++ tail
    /\ ((r = inr tt /\ pre = ms /\ tail = [])
        \/ (exists m post cause kf,
              ms = pre ++ m :: post
              /\ r = inl (ErrApply (ID m) (Description m) cause)
              /\ ((tail = [CallExec (SQL m) []]
                   /\ tx_Exec c (SQL m) [] kf = (inl cause, k'))
                  \/ (exists d,
                        tail = calls_of c (m, d)
                        /\ tx_Exec c (insert_sql c)
                             [VInt (ID m); VText (Description m);
                              VText (SQL m); VSeconds d] kf
                           = (inl cause, k'))))).
Proof.
  induction ms as [|m rest IH]; intros k r k'; cbn [applyEach].
  - intros [= <- <-]. exists [], [], []. cbn. rewrite app_nil_r.
    split; [reflexivity|]. split; [reflexivity|]. left. auto.
  - intros Hrun.
    apply bind_run in Hrun as [(e & Hk & _)|(start & k0 & Hk0 & Hrun)];
      [discriminate|].
    injection Hk0 as <- <-.
    apply bind_run in Hrun as [(e & Hk & ->)|([] & k1 & Hk1 & Hrun)].
    { apply wrapping_run in Hk as [(cause & Hk & [= ->])|(a & _ & [=])].
      destruct (tx_Exec_run _ _ _ _ _ Hk) as [Htr _].
      exists [], [], [CallExec (SQL m) []]. cbn.
      split; [reflexivity|]. split; [exact Htr|].
      right. exists m, rest, cause, k. auto. }
    apply wrapping_run in Hk1 as [(cause & _ & [=])|(a & Hk1 & _)].
    apply tx_Exec_run in Hk1 as [Htr1 _].
    apply bind_run in Hrun as [(e & Hk & _)|(now & k1' & Hnow & Hrun)];
      [discriminate|].
    injection Hnow as <- <-.
    apply bind_run in Hrun as [(e & Hk & ->)|([] & k2 & Hk2 & Hrun)].
    { apply wrapping_run in Hk as [(cause & Hk & [= ->])|(a' & _ & [=])].
      destruct (tx_Exec_run _ _ _ _ _ Hk) as [Htr _].
      exists [], [], (calls_of c (m, clock k1 - clock k)). cbn.
      split; [reflexivity|]. split.
      - rewrite Htr, Htr1, <- app_assoc. reflexivity.
      - right. exists m, rest, cause, k1. split; [reflexivity|].
        split; [reflexivity|]. right. exists (clock k1 - clock k). auto. }
    apply wrapping_run in Hk2 as [(cause & _ & [=])|(a' & Hk2 & _)].
    apply tx_Exec_run in Hk2 as [Htr2 _].
    destruct (IH _ _ _ Hrun) as (pre & ds & tail & Hlen & Htr & Hcase).
    exists (m :: pre), ((clock k1 - clock k) :: ds), tail.
    split; [cbn; congruence|]. split.
    + rewrite Htr, Htr2, Htr1. cbn. rewrite <- !app_assoc. reflexivity.
    + destruct Hcase
        as [(-> & -> & ->)|(m' & post & cause & kf & -> & -> & Ht)].
      * left. auto.
      * right. exists m', post, cause, kf. auto.
Qed.

(** The rows of the loop: when it runs to its end, the transaction's view
    of the table has one new row per migration, in the order of the list,
    behind the rows that were there. *)
Lemma applyEach_rows (Hframe : keeps_bookkeeping B) (ms : Migrations) :
  forall k k' t rows,
    applyEach c (insert_sql c) ms k = (inr tt, k') ->
    tx k = Some t ->
    bookkeeping (working t) = Some rows ->
    exists (ds : list Z) w,
      length ds = length ms
      /\ tx k' = Some {| started := started t; working := w |}
      /\ bookkeeping w
         = Some (rows ++ map (row_of (started t)) (combine ms ds)).
Proof.
  induction ms as [|m rest IH]; intros k k' t rows; cbn [applyEach].
  - intros [= <-] Ht Hrows. exists [], (working t). cbn.
    rewrite app_nil_r. destruct t; auto.
  - intros Hrun Ht Hrows.
    apply bind_run in Hrun as [(e & Hk & [=])|(start & k0 & Hk0 & Hrun)].
    injection Hk0 as <- <-.
    apply bind_run in Hrun as [(e & Hk & [=])|([] & k1 & Hk1 & Hrun)].
    apply wrapping_run in Hk1 as [(cause & _ & [=])|([] & Hk1 & _)].
    apply tx_Exec_run in Hk1 as [_ Hk1].
    destruct (Hk1 eq_refl) as (t0 & w1 & Ht0 & _ & Hex1 & Ht1).
    rewrite Ht in Ht0. injection Ht0 as <-.
    pose proof (execute_plain _ _ _ _ Hframe Hex1 Hrows) as Hrows1.
    apply bind_run in Hrun as [(e & Hk & [=])|(now & k1' & Hnow & Hrun)].
    injection Hnow as <- <-.
    apply bind_run in Hrun as [(e & Hk & [=])|([] & k2 & Hk2 & Hrun)].
    apply wrapping_run in Hk2 as [(cause & _ & [=])|([] & Hk2 & _)].
    apply tx_Exec_run in Hk2 as [_ Hk2].
    destruct (Hk2 eq_refl) as (t1 & w2 & Ht1' & _ & Hex2 & Ht2).
    rewrite Ht1 in Ht1'. injection Ht1' as <-.
    rewrite execute_insert in Hex2. unfold insert_row in Hex2.
    cbn [working started] in Hex2. rewrite Hrows1 in Hex2.
    injection Hex2 as <-. cbn [started] in Ht2.
    destruct (IH _ _ _ _ Hrun Ht2 eq_refl) as (ds & w & Hlen & Htx & Hbk).
    exists ((clock k1 - clock k) :: ds), w.
    split; [cbn; congruence|]. split; [exact Htx|].
    rewrite Hbk. cbn. rewrite <- app_assoc. reflexivity.
Qed.

(** ** The whole of [Migrate] *)

Lemma create_if_absent_rows (s : Store Objects) :
  bookkeeping (create_if_absent s) = Some (recorded_rows s).
Proof.
  unfold create_if_absent, recorded_rows.
  destruct (bookkeeping s) eqn:Hb; [exact Hb|reflexivity].
Qed.

Lemma history_rows (s : Store Objects) :
  history s = map scan_row (order_by_id (recorded_rows s)).
Proof. unfold history, recorded_rows. destruct (bookkeeping s); reflexivity. Qed.

Lemma history_create_if_absent (s : Store Objects) :
  history (create_if_absent s) = history s.
Proof.
  unfold history, create_if_absent.
  destruct (bookkeeping s) eqn:Hb; cbn; [rewrite Hb|]; reflexivity.
Qed.

(** What [verifyMigrations] returns in a transaction that sees the table:
    the comparison of the history of that view with the candidate. *)
Lemma verifyMigrations_run (ms : Migrations) k t rows :
  tx k = Some t ->
  bookkeeping (working t) = Some rows ->
  fault (CallQuery (select_sql c)) (working t) = None ->
  verifyMigrations c ms k
  = (verify (history (working t)) ms, observe (CallQuery (select_sql c)) k).
Proof.
  intros Ht Hrows Hfault.
  unfold verifyMigrations, bind, tx_Query. cbv zeta.
  assert (Hobs : tx (observe (CallQuery (select_sql c)) k) = Some t)
    by exact Ht.
  rewrite Hobs, Hfault. unfold answer. rewrite String.eqb_refl, Hrows.
  cbn [scans rows_Err]. unfold verify, history. rewrite Hrows, map_map.
  destruct (verifyRows _ ms); reflexivity.
Qed.

(** A call of [Migrate] either stops with an error before it applies
    anything, or reaches [applyMigrations] in a transaction that sees the
    table, with the candidate minus the recorded history as the list to
    apply; the deferred rollback runs after it. *)
Lemma Migrate_phases (ms : Migrations) k r k' :
  Migrate c ms k = (r, k') ->
  (exists e delta,
      r = inl e
      /\ trace k' = trace k ++ delta
      /\ (statements delta = [] \/ statements delta = [init_sql c]))
  \/ (exists s k3 k4 rest,
        Migrations_Valid ms = None
        /\ verify (history (durable k)) ms = inr rest
        /\ tx k3 = Some {| started := s;
                            working := create_if_absent (durable k) |}
        /\ trace k3 = trace k ++ [CallBegin; CallExec (init_sql c) [];
                                   CallQuery (select_sql c)]
        /\ applyMigrations c rest k3 = (r, k4)
        /\ k' = snd (tx_Rollback k4)).
Proof.
  unfold Migrate. destruct (Migrations_Valid ms) as [err|].
  { intros [= <- <-]. left. exists err, []. rewrite app_nil_r. auto. }
  intros Hrun.
  apply bind_run in Hrun as [(e & Hbegin & ->)|([] & k1 & Hbegin & Hrun)].
  { left. exists e, [CallBegin]. split; [reflexivity|].
    apply db_Begin_run in Hbegin as (_ & -> & _). auto. }
  apply db_Begin_run in Hbegin as (Hd1 & Htr1 & Hb).
  destruct (Hb eq_refl) as (_ & s & Htx1). clear Hb.
  unfold defer in Hrun.
  match type of Hrun with
  | (let (_, _) := ?body k1 in _) = _ =>
      destruct (body k1) as [r2 k2] eqn:Hbody
  end.
  injection Hrun as -> <-.
  destruct (tx_Rollback_run k2) as (_ & _ & Htr6).
  apply bind_run in Hbody as [(e & Hinit & ->)|([] & ka & Hinit & Hbody)].
  { left. exists e, [CallBegin; CallExec (init_sql c) []; CallRollback].
    split; [reflexivity|].
    apply tx_Exec_run in Hinit as [Htra _].
    rewrite Htr6, Htra, Htr1, <- !app_assoc. auto. }
  apply tx_Exec_run in Hinit as [Htra Hinit].
  destruct (Hinit eq_refl) as (t1 & w & Ht1 & _ & Hex & Htxa). clear Hinit.
  rewrite Htx1 in Ht1. injection Ht1 as <-.
  rewrite execute_init in Hex. injection Hex as <-.
  cbn [started working] in Htxa.
  apply bind_run in Hbody as [(e & Hver & ->)|(ms' & k3 & Hver & Happly)].
  { left.
    exists e, [CallBegin; CallExec (init_sql c) [];
               CallQuery (select_sql c); CallRollback].
    split; [reflexivity|].
    unfold verifyMigrations in Hver. cbv zeta in Hver.
    assert (Htr2 : trace k2 = trace ka ++ [CallQuery (select_sql c)]).
    { apply bind_run in Hver as [(e0 & Hq & _)|(rows & kq & Hq & Hver)];
        apply tx_Query_run in Hq as (Htrq & _).
      - exact Htrq.
      - destruct (verifyRows _ _); [|destruct (rows_Err rows)];
          injection Hver as _ <-; exact Htrq. }
    rewrite Htr6, Htr2, Htra, Htr1, <- !app_assoc. auto. }
  right.
  assert (Hq : forall call, tx (observe call ka) = tx ka) by reflexivity.
  assert (Hverify : verify (history (durable k)) ms = inr ms'
                    /\ k3 = observe (CallQuery (select_sql c)) ka).
  { unfold verifyMigrations in Hver. cbv zeta in Hver.
    apply bind_run in Hver as [(e & _ & [=])|(rows & kq & Hquery & Hver)].
    apply tx_Query_run in Hquery as Hq'.
    destruct Hq' as (_ & _ & Hans).
    destruct (Hans rows eq_refl) as (tq & Htq & Hfq & _).
    rewrite Htxa in Htq. injection Htq as <-.
    pose proof (verifyMigrations_run ms ka _ _ Htxa
                  (create_if_absent_rows (durable k)) Hfq) as Hfull.
    unfold verifyMigrations in Hfull. cbv zeta in Hfull.
    unfold bind at 1 in Hfull. rewrite Hquery in Hfull.
    rewrite Hver in Hfull. injection Hfull as Hres Hk.
    cbn [working] in Hres. rewrite history_create_if_absent in Hres.
    split; [symmetry; exact Hres|exact Hk]. }
  destruct Hverify as [Hverify ->].
  exists s, (observe (CallQuery (select_sql c)) ka), k2, ms'.
  split; [reflexivity|]. split; [exact Hverify|].
  split; [rewrite Hq; exact Htxa|].
  split; [cbn [observe trace]; rewrite Htra, Htr1, <- !app_assoc;
          reflexivity|].
  split; [exact Happly|reflexivity].
Qed.

(** The steps of a call of [Migrate] that succeeds. *)
Lemma Migrate_success_steps (ms applied : Migrations) k k' :
  Migrate c ms k = (inr applied, k') ->
  exists s k3 k4 t,
    Migrations_Valid ms = None
    /\ verify (history (durable k)) ms = inr applied
    /\ tx k3 = Some {| started := s;
                        working := create_if_absent (durable k) |}
    /\ trace k3 = trace k ++ [CallBegin; CallExec (init_sql c) [];
                               CallQuery (select_sql c)]
    /\ applyEach c (insert_sql c) applied k3 = (inr tt, k4)
    /\ tx k4 = Some t
    /\ durable k' = working t
    /\ tx k' = None
    /\ trace k' = trace k4 ++ [CallCommit; CallRollback].
Proof.
  intros Hrun.
  apply Migrate_phases in Hrun
    as [(e & delta & [=] & _)|(s & k3 & k2 & rest & Hv & Hver & Htx3 & Htr3
                              & Happly & ->)].
  unfold applyMigrations in Happly. cbv zeta in Happly.
  apply bind_run in Happly as [(e & _ & [=])|([] & k4 & Heach & Happly)].
  apply bind_run in Happly as [(e & _ & [=])|([] & k5 & Hcommit & Hret)].
  injection Hret as <- <-.
  apply tx_Commit_run in Hcommit as (_ & _ & Hok & Htr5).
  destruct (Hok eq_refl) as (t & Ht4 & Hd5 & _).
  destruct (tx_Rollback_run k5) as (Hd6 & Ht6 & Htr6).
  exists s, k3, k4, t.
  repeat (split; [assumption|]).
  split; [congruence|]. split; [exact Ht6|].
  rewrite Htr6, Htr5, <- app_assoc. reflexivity.
Qed.

(** A call of [Migrate] that fails leaves the durable store as it was. *)
Lemma Migrate_error_durable (ms : Migrations) k e k' :
  Migrate c ms k = (inl e, k') -> durable k' = durable k.
Proof.
  unfold Migrate. destruct (Migrations_Valid ms) as [err|].
  { intros [= <- <-]. reflexivity. }
  intros Hrun.
  apply bind_run in Hrun as [(e0 & Hbegin & _)|([] & k1 & Hbegin & Hrun)].
  { apply db_Begin_run in Hbegin. tauto. }
  apply db_Begin_run in Hbegin as (Hd1 & _ & _).
  unfold defer in Hrun.
  match type of Hrun with
  | (let (_, _) := ?body k1 in _) = _ =>
      destruct (body k1) as [r k2] eqn:Hbody
  end.
  injection Hrun as -> <-.
  rewrite (proj1 (tx_Rollback_run k2)), <- Hd1.
  apply bind_run in Hbody as [(e0 & Hinit & _)|([] & ka & Hinit & Hbody)].
  { exact (inside_quiet _ inside_init _ _ _ Hinit). }
  apply (inside_quiet _ inside_init) in Hinit. rewrite <- Hinit.
  apply bind_run in Hbody as [(e0 & Hver & _)|(ms' & k3 & Hver & Happly)].
  { exact (inside_quiet _ (inside_verifyMigrations ms) _ _ _ Hver). }
  apply (inside_quiet _ (inside_verifyMigrations ms)) in Hver.
  rewrite <- Hver.
  unfold applyMigrations in Happly. cbv zeta in Happly.
  apply bind_run in Happly as [(e0 & Heach & _)|([] & k4 & Heach & Happly)].
  { exact (inside_quiet _ (inside_applyEach _ ms') _ _ _ Heach). }
  apply (inside_quiet _ (inside_applyEach _ ms')) in Heach.
  rewrite <- Heach.
  apply bind_run in Happly as [(e0 & Hcommit & _)|([] & k5 & _ & [=])].
  apply tx_Commit_run in Hcommit as (_ & Hfail & _).
  exact (Hfail e0 eq_refl).
Qed.
End DriverFacts.

(* ================================================================== *)
(** * The order of the recorded rows                                   *)
(* ================================================================== *)

Section Ordering.

Lemma order_by_id_snoc (l : list Row) (r : Row) :
  order_by_id (l ++ [r]) = insert_by_id r (order_by_id l).
Proof. unfold order_by_id. rewrite fold_left_app. reflexivity. Qed.

(** A row that no earlier row exceeds goes to the end. *)
Lemma insert_by_id_last (r : Row) (l : list Row) :
  Forall (fun y => row_id y <= row_id r) l -> insert_by_id r l = l ++ [r].
Proof.
  induction 1 as [|y l Hy _ IH]; [reflexivity|].
  cbn [insert_by_id]. destruct (Z.leb_spec (row_id y) (row_id r)); [|lia].
  rewrite IH. reflexivity.
Qed.

(** Rows inserted in ascending order behind rows with smaller ids are read
    back in the order they were inserted. *)
Lemma fold_insert_ascending (new : list Row) : forall acc,
  Forall (fun a => Forall (fun n => row_id a <= row_id n) new) acc ->
  ascending new ->
  fold_left (fun acc r => insert_by_id r acc) new acc = acc ++ new.
Proof.
  induction new as [|x new IH]; intros acc Hacc Hasc; cbn [fold_left].
  - rewrite app_nil_r. reflexivity.
  - destruct Hasc as [Hx Hasc].
    rewrite insert_by_id_last.
    + rewrite IH; [rewrite <- app_assoc; reflexivity| |exact Hasc].
      apply Forall_app. split.
      * eapply Forall_impl; [|exact Hacc]. intros a Ha.
        inversion Ha; assumption.
      * constructor; [exact Hx|constructor].
    + eapply Forall_impl; [|exact Hacc]. intros a Ha.
      inversion Ha; assumption.
Qed.

Lemma order_by_id_app (old new : list Row) :
  Forall (fun a => Forall (fun n => row_id a <= row_id n) new)
    (order_by_id old) ->
  ascending new ->
  order_by_id (old ++ new) = order_by_id old ++ new.
Proof.
  intros Hold Hnew. unfold order_by_id at 1. rewrite fold_left_app.
  apply fold_insert_ascending; assumption.
Qed.

Lemma dense_scan_nth (l : list Row) (i : nat) (r : Row) :
  dense (map scan_row l) -> nth_error l i = Some r ->
  row_id r = Z.of_nat i + 1.
Proof.
  intros Hd Hn. apply (Hd i (scan_row r)).
  rewrite nth_error_map, Hn. reflexivity.
Qed.

(** In a dense list every row of a front part has a smaller id than every
    row behind it, and the back part is in ascending order. *)
Lemma dense_front_back (back : list Row) : forall front,
  dense (map scan_row (front ++ back)) ->
  Forall (fun a => Forall (fun n => row_id a <= row_id n) back) front
  /\ ascending back.
Proof.
  assert (Hfb : forall front back,
             dense (map scan_row (front ++ back)) ->
             Forall (fun a => Forall (fun n => row_id a <= row_id n) back)
               front).
  { intros front back' Hd. apply Forall_forall. intros a Ha.
    apply Forall_forall. intros n Hn.
    apply In_nth_error in Ha as [i Hi]. apply In_nth_error in Hn as [j Hj].
    assert (Hlt : (i < length front)%nat)
      by (apply nth_error_Some; congruence).
    rewrite (dense_scan_nth _ i a Hd)
      by (rewrite nth_error_app1; assumption).
    rewrite (dense_scan_nth _ (length front + j) n Hd).
    - lia.
    - rewrite nth_error_app2 by lia.
      replace (length front + j - length front)%nat with j by lia.
      exact Hj. }
  induction back as [|x back IH]; intros front Hd.
  - split; [apply Hfb; exact Hd|exact I].
  - split; [apply Hfb; exact Hd|].
    assert (Hd' : dense (map scan_row ((front ++ [x]) ++ back)))
      by (rewrite <- app_assoc; exact Hd).
    cbn [ascending]. split.
    + pose proof (Hfb _ _ Hd') as Hall.
      apply Forall_app in Hall as [_ Hx]. inversion Hx; assumption.
    + exact (proj2 (IH _ Hd')).
Qed.

Lemma scan_row_of (start : Z) (ms : Migrations) : forall ds,
  length ds = length ms ->
  map scan_row (map (row_of start) (combine ms ds)) = ms.
Proof.
  induction ms as [|m ms IH]; intros [|d ds] Hlen; try discriminate;
    [reflexivity|].
  cbn. rewrite IH by (cbn in Hlen; lia). destruct m; reflexivity.
Qed.

(** Appending the rows of the migrations that follow a recorded history
    extends the history by those migrations, when the whole is dense. *)
Lemma history_extended (old new : list Row) :
  dense (map scan_row (order_by_id old) ++ map scan_row new) ->
  map scan_row (order_by_id (old ++ new))
  = map scan_row (order_by_id old) ++ map scan_row new.
Proof.
  intros Hd. rewrite <- map_app in Hd.
  destruct (dense_front_back _ _ Hd) as [Hfront Hback].
  rewrite order_by_id_app by assumption. apply map_app.
Qed.
End Ordering.

(* ================================================================== *)
(** * Migrate                                                          *)
(* ================================================================== *)

Section MigrateFacts.
Context `{B : Backend}.
Variable c : Config.

(** ** Calls that go through *)

Lemma db_Begin_ok k :
  fault CallBegin (durable k) = None ->
  db_Begin k
  = (inr tt,
     with_tx (observe CallBegin k)
       (Some {| started := clock (observe CallBegin k);
                working := durable k |})).
Proof. intros Hf. unfold db_Begin. cbn [observe durable]. rewrite Hf. reflexivity. Qed.

Lemma tx_Exec_ok (sql : string) (args : list Value) k t w :
  tx k = Some t ->
  fault (CallExec sql args) (working t) = None ->
  execute c sql args t = inr w ->
  tx_Exec c sql args k
  = (inr tt,
     with_tx (observe (CallExec sql args) k)
       (Some {| started := started t; working := w |})).
Proof.
  intros Ht Hf He. unfold tx_Exec. cbn [observe tx]. rewrite Ht, Hf, He.
  reflexivity.
Qed.

Lemma tx_Commit_ok k t :
  tx k = Some t ->
  fault CallCommit (working t) = None ->
  tx_Commit k
  = (inr tt,
     {| durable := working t; tx := None;
        clock := clock (observe CallCommit k);
        trace := trace k ++ [CallCommit] |}).
Proof.
  intros Ht Hf. unfold tx_Commit. cbn [observe tx]. rewrite Ht, Hf.
  reflexivity.
Qed.

(** ** Nothing left to apply *)

Lemma verify_all (ms : Migrations) : verify ms ms = inr [].
Proof.
  pose proof (verify_prefix ms []) as Hv. rewrite app_nil_r in Hv. exact Hv.
Qed.

(** With the whole candidate recorded and no failure of the four calls it
    makes, [Migrate] returns the empty list and commits the view it began
    with, to which [init] added at most an empty table. *)
Lemma Migrate_nothing_to_do (ms : Migrations) k :
  Migrations_Valid ms = None ->
  history (durable k) = ms ->
  fault CallBegin (durable k) = None ->
  fault (CallExec (init_sql c) []) (durable k) = None ->
  fault (CallQuery (select_sql c)) (create_if_absent (durable k)) = None ->
  fault CallCommit (create_if_absent (durable k)) = None ->
  exists k',
    Migrate c ms k = (inr [], k')
    /\ durable k' = create_if_absent (durable k)
    /\ trace k' = trace k ++ [CallBegin; CallExec (init_sql c) [];
                               CallQuery (select_sql c);
                               CallCommit; CallRollback].
Proof.
  intros Hv Hh Hf1 Hf2 Hf3 Hf4.
  unfold Migrate. rewrite Hv.
  unfold bind at 1. rewrite (db_Begin_ok k Hf1).
  set (k1 := with_tx _ _).
  unfold defer, bind at 1. unfold init.
  rewrite (tx_Exec_ok (init_sql c) [] k1 _ _ eq_refl Hf2 (execute_init c _)).
  cbn [started working].
  set (k2 := with_tx _ _).
  unfold bind at 1.
  rewrite (verifyMigrations_run c ms k2 _ _ eq_refl
             (create_if_absent_rows (durable k)) Hf3).
  cbn [working]. rewrite history_create_if_absent, Hh, verify_all.
  set (k3 := observe _ k2).
  unfold applyMigrations. cbv zeta. cbn [applyEach].
  unfold bind at 1, ret at 1. unfold bind at 1.
  rewrite (tx_Commit_ok k3 _ eq_refl Hf4).
  eexists. split; [reflexivity|].
  split; [reflexivity|].
  cbn [snd tx_Rollback observe trace with_tx tx].
  subst k3 k2 k1. cbn [observe trace with_tx].
  rewrite <- !app_assoc. reflexivity.
Qed.

(** ** A call that succeeds *)

Lemma counting_from_ascending (i : Z) (m : Migrations) :
  counting_from i m -> strictly_ascending m.
Proof.
  intros Hc n j a b Hlt Ha Hb.
  rewrite (Hc _ _ Ha), (Hc _ _ Hb). lia.
Qed.

Lemma dense_back (front back : Migrations) :
  dense (front ++ back) -> counting_from (Z.of_nat (length front)) back.
Proof.
  intros Hd n x Hn.
  rewrite (Hd (length front + n)%nat x); [lia|].
  rewrite nth_error_app2 by lia.
  replace (length front + n - length front)%nat with n by lia. exact Hn.
Qed.

(** The calls of a call of [Migrate] that succeeds. *)
Lemma Migrate_success_trace (ms applied : Migrations) k k' :
  Migrate c ms k = (inr applied, k') ->
  exists ds,
    length ds = length applied
    /\ trace k' = trace k
                  ++ [CallBegin; CallExec (init_sql c) [];
                      CallQuery (select_sql c)]
                  ++ flat_map (calls_of c) (combine applied ds)
                  ++ [CallCommit; CallRollback].
Proof.
  intros Hrun.
  destruct (Migrate_success_steps c _ _ _ _ Hrun)
    as (s & k3 & k4 & t & _ & _ & _ & Htr3 & Heach & _ & _ & _ & Htr').
  destruct (applyEach_trace c _ _ _ _ Heach)
    as (pre & ds & tail & Hlen & Htr4 & Hcase).
  destruct Hcase as [(_ & -> & ->)|(m & post & cause & kf & _ & [=] & _)].
  exists ds. split; [exact Hlen|].
  rewrite Htr', Htr4, Htr3, app_nil_r, <- !app_assoc. reflexivity.
Qed.

(** The rows of a call of [Migrate] that succeeds: the new rows stand
    behind the old ones, they are the rows of the returned migrations, and
    the recorded history is now the whole candidate. *)
Lemma Migrate_success_rows (ms applied : Migrations) k k' :
  keeps_bookkeeping B ->
  Migrate c ms k = (inr applied, k') ->
  exists new,
    bookkeeping (durable k') = Some (recorded_rows (durable k) ++ new)
    /\ map scan_row new = applied
    /\ history (durable k') = ms
    /\ ms = history (durable k) ++ applied.
Proof.
  intros Hframe Hrun.
  destruct (Migrate_success_steps c _ _ _ _ Hrun)
    as (s & k3 & k4 & t & Hv & Hver & Htx3 & _ & Heach & Htx4 & Hd & _).
  destruct (applyEach_rows c Hframe applied k3 k4 _ _ Heach Htx3
              (create_if_absent_rows _))
    as (ds & w & Hlen & Htx4' & Hbk).
  rewrite Htx4 in Htx4'. injection Htx4' as ->. cbn [working] in Hd.
  cbn [started] in Hbk.
  apply verify_sound in Hver.
  exists (map (row_of s) (combine applied ds)).
  rewrite Hd. split; [exact Hbk|].
  split; [apply scan_row_of; exact Hlen|].
  split; [|exact Hver].
  unfold history at 1. rewrite Hbk, history_extended.
  - rewrite scan_row_of by exact Hlen.
    rewrite <- history_rows. symmetry. exact Hver.
  - rewrite scan_row_of by exact Hlen.
    rewrite <- history_rows, <- Hver.
    apply Migrations_Valid_ok in Hv. tauto.
Qed.

(** ** Properties of [Migrate] and [applyMigrations] *)

(** C9: when the candidate fails validation, [Migrate] returns the error
    of [Migrations.Valid] and the connection is exactly what it was: no
    call was made on it (the trace did not grow), no transaction was
    opened, the store is untouched. *)
Theorem Migrate_invalid_no_interaction (ms : Migrations) (err : error) k :
  Migrations_Valid ms = Some err ->
  Migrate c ms k = (inl err, k).
Proof. intros Hv. unfold Migrate. rewrite Hv. reflexivity. Qed.

(** C2: a call of [Migrate] that returns an error, at whatever stage,
    leaves the durable store exactly as it was before the call.  A call
    that succeeds ran the statement and the insert of every migration of
    the candidate that was not recorded, in one transaction, and committed
    it: nothing is applied in part. *)
Theorem Migrate_all_or_nothing (ms : Migrations) k r k' :
  Migrate c ms k = (r, k') ->
  match r with
  | inl _ => durable k' = durable k
  | inr applied =>
      ms = history (durable k) ++ applied
      /\ exists ds,
          length ds = length applied
          /\ trace k' = trace k
                        ++ [CallBegin; CallExec (init_sql c) [];
                            CallQuery (select_sql c)]
                        ++ flat_map (calls_of c) (combine applied ds)
                        ++ [CallCommit; CallRollback]
  end.
Proof.
  intros Hrun. destruct r as [e|applied].
  - exact (Migrate_error_durable c _ _ _ _ Hrun).
  - split; [|exact (Migrate_success_trace _ _ _ _ Hrun)].
    destruct (Migrate_success_steps c _ _ _ _ Hrun)
      as (_ & _ & _ & _ & _ & Hver & _).
    exact (verify_sound _ _ _ Hver).
Qed.

(** C4: a call of [Migrate] that succeeds had a valid candidate whose
    first [k] migrations are the recorded history, and it returns the
    candidate without them: the migrations it applied in this call, with
    the ids [k+1], [k+2], ... in this order, and the empty list when the
    history is as long as the candidate. *)
Theorem Migrate_returns_applied_suffix (ms applied : Migrations) k k' :
  Migrate c ms k = (inr applied, k') ->
  Migrations_Valid ms = None
  /\ firstn (length (history (durable k))) ms = history (durable k)
  /\ applied = skipn (length (history (durable k))) ms
  /\ counting_from (Z.of_nat (length (history (durable k)))) applied
  /\ strictly_ascending applied
  /\ (length (history (durable k)) = length ms -> applied = [])
  /\ exists ds,
      length ds = length applied
      /\ trace k' = trace k
                    ++ [CallBegin; CallExec (init_sql c) [];
                        CallQuery (select_sql c)]
                    ++ flat_map (calls_of c) (combine applied ds)
                    ++ [CallCommit; CallRollback].
Proof.
  intros Hrun.
  destruct (Migrate_success_steps c _ _ _ _ Hrun)
    as (_ & _ & _ & _ & Hv & Hver & _).
  apply verify_sound in Hver.
  assert (Hcount : counting_from (Z.of_nat (length (history (durable k))))
                     applied).
  { apply dense_back. rewrite <- Hver.
    apply Migrations_Valid_ok in Hv. tauto. }
  split; [exact Hv|].
  split; [rewrite Hver at 1; rewrite firstn_app, firstn_all, Nat.sub_diag;
          cbn; apply app_nil_r|].
  split; [rewrite Hver at 1; rewrite skipn_app, skipn_all, Nat.sub_diag;
          reflexivity|].
  split; [exact Hcount|].
  split; [exact (counting_from_ascending _ _ Hcount)|].
  split; [|exact (Migrate_success_trace _ _ _ _ Hrun)].
  intros Hlen. rewrite Hver, length_app in Hlen.
  destruct applied; [reflexivity|cbn in Hlen; lia].
Qed.

Lemma create_if_absent_idem (s : Store Objects) :
  create_if_absent (create_if_absent s) = create_if_absent s.
Proof.
  unfold create_if_absent at 1. rewrite create_if_absent_rows. reflexivity.
Qed.

(** After a call that succeeded, the candidate is recorded whole, so that a
    second call with it has nothing to apply; this needs the statements of
    the migrations to leave the bookkeeping table alone. *)
Lemma Migrate_again_after_success (ms applied : Migrations) k k1 :
  keeps_bookkeeping B ->
  Migrate c ms k = (inr applied, k1) ->
  calm c (durable k1) ->
  exists k2, Migrate c ms k1 = (inr [], k2) /\ durable k2 = durable k1.
Proof.
  intros Hframe Hrun (Hf1 & Hf2 & Hf3 & Hf4).
  destruct (Migrate_success_rows _ _ _ _ Hframe Hrun)
    as (new & Hbk & _ & Hh & _).
  destruct (Migrate_success_steps c _ _ _ _ Hrun) as (_ & _ & _ & _ & Hv & _).
  assert (Hsame : create_if_absent (durable k1) = durable k1)
    by (unfold create_if_absent; rewrite Hbk; reflexivity).
  destruct (Migrate_nothing_to_do ms k1 Hv Hh Hf1 Hf2 Hf3 Hf4)
    as (k2 & Hrun2 & Hd & _).
  exists k2. split; [exact Hrun2|congruence].
Qed.

(** C5: with a valid candidate that is recorded whole, and the four calls
    going through, [Migrate] succeeds, returns the empty list and leaves
    rows and objects as they were, so that the candidate is still recorded
    whole; a second call right after it does the same: again the empty list,
    no error, and the rows as they were before the first call. *)
Theorem Migrate_idempotent (ms : Migrations) k :
  Migrations_Valid ms = None ->
  history (durable k) = ms ->
  calm c (durable k) ->
  exists k1,
    Migrate c ms k = (inr [], k1)
    /\ recorded_rows (durable k1) = recorded_rows (durable k)
    /\ objects (durable k1) = objects (durable k)
    /\ history (durable k1) = ms
    /\ (calm c (durable k1) ->
        exists k2,
          Migrate c ms k1 = (inr [], k2)
          /\ recorded_rows (durable k2) = recorded_rows (durable k)
          /\ objects (durable k2) = objects (durable k)).
Proof.
  intros Hv Hh (Hf1 & Hf2 & Hf3 & Hf4).
  destruct (Migrate_nothing_to_do ms k Hv Hh Hf1 Hf2 Hf3 Hf4)
    as (k1 & Hrun & Hd & _).
  assert (Hrows : forall s : Store Objects,
             recorded_rows (create_if_absent s) = recorded_rows s
             /\ objects (create_if_absent s) = objects s).
  { intros s. unfold create_if_absent, recorded_rows.
    destruct (bookkeeping s) eqn:Hb; cbn; [rewrite Hb|]; auto. }
  assert (Hh1 : history (durable k1) = ms)
    by (rewrite Hd, history_create_if_absent; exact Hh).
  exists k1. split; [exact Hrun|].
  split; [rewrite Hd; apply Hrows|]. split; [rewrite Hd; apply Hrows|].
  split; [exact Hh1|].
  intros (Hg1 & Hg2 & Hg3 & Hg4).
  destruct (Migrate_nothing_to_do ms k1 Hv Hh1 Hg1 Hg2 Hg3 Hg4)
    as (k2 & Hrun2 & Hd2 & _).
  exists k2. split; [exact Hrun2|].
  rewrite Hd2, Hd, create_if_absent_idem. split; apply Hrows.
Qed.

(** C6: [applyMigrations] takes the migrations in the order of its list.
    Its calls are the statement and the insert of each migration of a
    front part of the list, then either the commit, or the one or two
    calls of the next migration, of which the last failed; in that case
    the error carries that migration's id and description and the error of
    the failed call, and the connection is the one that call left: no call
    follows.  In [Migrate] the list has strictly ascending ids: it is the
    candidate behind the recorded history. *)
Theorem applyMigrations_in_order_until_failure :
  (forall (ms : Migrations) k r k',
      applyMigrations c ms k = (r, k') ->
      exists (done : Migrations) (ds : list Z) (tail : list Call),
        length ds = length done
        /\ trace k' = trace k ++ flat_map (calls_of c) (combine done ds)
                              ++ tail
        /\ ((r = inr ms /\ done = ms /\ tail = [CallCommit])
            \/ (exists cause,
                  r = inl cause /\ done = ms /\ tail = [CallCommit])
            \/ (exists m post cause kf,
                  ms = done ++ m :: post
                  /\ r = inl (ErrApply (ID m) (Description m) cause)
                  /\ ((tail = [CallExec (SQL m) []]
                       /\ tx_Exec c (SQL m) [] kf = (inl cause, k'))
                      \/ (exists d,
                            tail = calls_of c (m, d)
                            /\ tx_Exec c (insert_sql c)
                                 [VInt (ID m); VText (Description m);
                                  VText (SQL m); VSeconds d] kf
                               = (inl cause, k'))))))
  /\ (forall (ms : Migrations) k r k',
        Migrate c ms k = (r, k') ->
        (exists e delta,
            r = inl e /\ trace k' = trace k ++ delta
            /\ (statements delta = [] \/ statements delta = [init_sql c]))
        \/ (exists k3 k4 rest,
              applyMigrations c rest k3 = (r, k4)
              /\ rest = skipn (length (history (durable k))) ms
              /\ strictly_ascending rest)).
Proof.
  split.
  - intros ms k r k' Hrun.
    unfold applyMigrations in Hrun. cbv zeta in Hrun.
    apply bind_run in Hrun as [(e & Heach & ->)|([] & k4 & Heach & Hrun)].
    + destruct (applyEach_trace c _ _ _ _ Heach)
        as (pre & ds & tail & Hlen & Htr & Hcase).
      destruct Hcase
        as [([=] & _)|(m & post & cause & kf & -> & [= ->] & Htail)].
      exists pre, ds, tail. split; [exact Hlen|]. split; [exact Htr|].
      right. right. exists m, post, cause, kf. auto.
    + destruct (applyEach_trace c _ _ _ _ Heach)
        as (pre & ds & tail & Hlen & Htr & Hcase).
      destruct Hcase
        as [(_ & -> & ->)|(m & post & cause & kf & _ & [=] & _)].
      rewrite app_nil_r in Htr.
      exists ms, ds, [CallCommit]. split; [exact Hlen|].
      apply bind_run in Hrun as [(e & Hcommit & ->)|([] & k5 & Hcommit & Hret)].
      * apply tx_Commit_run in Hcommit as (_ & _ & _ & Htr5).
        split; [rewrite Htr5, Htr, <- app_assoc; reflexivity|].
        right. left. exists e. auto.
      * injection Hret as <- <-.
        apply tx_Commit_run in Hcommit as (_ & _ & _ & Htr5).
        split; [rewrite Htr5, Htr, <- app_assoc; reflexivity|].
        left. auto.
  - intros ms k r k' Hrun.
    apply Migrate_phases in Hrun
      as [(e & delta & -> & Htr & Hst)
         |(s & k3 & k4 & rest & Hv & Hver & _ & _ & Happly & _)].
    + left. exists e, delta. auto.
    + right. exists k3, k4, rest. split; [exact Happly|].
      apply verify_sound in Hver. split.
      * rewrite Hver at 1. rewrite skipn_app, skipn_all, Nat.sub_diag.
        reflexivity.
      * apply (counting_from_ascending
                 (Z.of_nat (length (history (durable k))))).
        apply dense_back. rewrite <- Hver.
        apply Migrations_Valid_ok in Hv. tauto.
Qed.

End MigrateFacts.

(* ================================================================== *)
(** * The tests of the package, run on the model                       *)
(* ================================================================== *)

Section Runs.

Lemma Journal_keeps_bookkeeping : keeps_bookkeeping Journal.
Proof.
  intros sql args s s'. cbn.
  destruct (String.eqb sql _); [discriminate|].
  intros [= <-]. reflexivity.
Qed.

(** [TestMigrations_valid] *)
Example test_Migrations_valid :
  option_map Error (Migrations_Valid [{| ID := 2; Description := EmptyString;
                                         SQL := EmptyString |}])
  = Some "unexpected migration id: got=2 want=1"%string
  /\ option_map Error
       (Migrations_Valid [{| ID := 1; Description := EmptyString;
                             SQL := EmptyString |}])
     = Some "invalid migration 1: missing description"%string
  /\ option_map Error
       (Migrations_Valid [{| ID := 1; Description := "foo";
                             SQL := EmptyString |}])
     = Some "invalid migration 1: missing sql"%string
  /\ Migrations_Valid [create_schema; create_table] = None
  /\ option_map Error
       (Migrations_Valid
          [create_schema;
           {| ID := 3; Description := "3_bar.sql"; SQL := "SELECT 3" |}])
     = Some "unexpected migration id: got=3 want=2"%string
  /\ option_map Error
       (Migrations_Valid
          [create_schema;
           {| ID := 1; Description := "1_bar.sql"; SQL := "SELECT 3" |}])
     = Some "unexpected migration id: got=1 want=2"%string.
Proof. repeat split; run. Qed.

(** [TestConfig_Migrate]: one migration; two together; two one after the
    other; unknown migration; modified migration. *)
Example test_Config_Migrate :
  fst (Migrate DefaultConfig [create_schema] fresh) = inr [create_schema]
  /\ fst (Migrate DefaultConfig [create_schema; create_table] fresh)
     = inr [create_schema; create_table]
  /\ fst (Migrate DefaultConfig [create_schema; create_table] after_first)
     = inr [create_table]
  /\ fst (Migrate DefaultConfig [] after_first)
     = inl (ErrUnknownMigration 1)
  /\ fst (Migrate DefaultConfig [create_schema_edited] after_first)
     = inl (ErrModifiedMigration 1).
Proof. repeat split; run. Qed.

Lemma Migrate_invalid_no_interaction_witness :
  Migrations_Valid [create_table] = Some (ErrUnexpectedID 2 1)
  /\ Migrate DefaultConfig [create_table] fresh
     = (inl (ErrUnexpectedID 2 1), fresh).
Proof.
  split; [run|].
  apply (Migrate_invalid_no_interaction DefaultConfig). run.
Defined.

(** The second of two migrations fails; and a commit that fails. *)
Lemma Migrate_all_or_nothing_witness :
  (fst (Migrate DefaultConfig [create_schema; broken_statement] fresh)
   = inl (ErrApply 2 "2_broken.sql" (ErrDriver "pq: division by zero"))
   /\ durable (snd (Migrate DefaultConfig [create_schema; broken_statement]
                      fresh))
      = durable fresh)
  /\ (fst (Migrate DefaultConfig [create_schema] unreachable)
      = inl (ErrDriver "driver: bad connection")
      /\ durable (snd (Migrate DefaultConfig [create_schema] unreachable))
         = durable unreachable).
Proof.
  split; (split; [run|]).
  - assert (Hrun : Migrate DefaultConfig [create_schema; broken_statement]
                     fresh
                   = (inl (ErrApply 2 "2_broken.sql"
                             (ErrDriver "pq: division by zero")),
                      snd (Migrate DefaultConfig
                             [create_schema; broken_statement] fresh)))
      by run.
    exact (Migrate_all_or_nothing DefaultConfig _ _ _ _ Hrun).
  - assert (Hrun : Migrate DefaultConfig [create_schema] unreachable
                   = (inl (ErrDriver "driver: bad connection"),
                      snd (Migrate DefaultConfig [create_schema]
                             unreachable)))
      by run.
    exact (Migrate_all_or_nothing DefaultConfig _ _ _ _ Hrun).
Defined.

Lemma Migrate_returns_applied_suffix_witness :
  fst (Migrate DefaultConfig [create_schema; create_table] after_first)
  = inr [create_table]
  /\ [create_table]
     = skipn (length (history (durable after_first)))
         [create_schema; create_table].
Proof.
  split; [run|].
  assert (Hrun : Migrate DefaultConfig [create_schema; create_table]
                   after_first
                 = (inr [create_table],
                    snd (Migrate DefaultConfig [create_schema; create_table]
                           after_first)))
    by run.
  apply (Migrate_returns_applied_suffix DefaultConfig _ _ _ _ Hrun).
Defined.

Lemma Migrate_idempotent_witness :
  exists k1,
    Migrate DefaultConfig [create_schema] after_first = (inr [], k1)
    /\ recorded_rows (durable k1) = recorded_rows (durable after_first)
    /\ objects (durable k1) = objects (durable after_first)
    /\ history (durable k1) = [create_schema]
    /\ (calm DefaultConfig (durable k1) ->
        exists k2,
          Migrate DefaultConfig [create_schema] k1 = (inr [], k2)
          /\ recorded_rows (durable k2) = recorded_rows (durable after_first)
          /\ objects (durable k2) = objects (durable after_first)).
Proof.
  apply (Migrate_idempotent DefaultConfig [create_schema] after_first).
  - run.
  - run.
  - repeat split; run.
Defined.

Lemma applyMigrations_in_order_until_failure_witness :
  (exists (done : Migrations) (ds : list Z) (tail : list Call),
      length ds = length done
      /\ trace (snd (applyMigrations DefaultConfig
                       [create_table; broken_statement] begun))
         = trace begun ++ flat_map (calls_of DefaultConfig) (combine done ds)
                       ++ tail
      /\ ((@inl error Migrations
             (ErrApply 2 "2_broken.sql" (ErrDriver "pq: division by zero"))
           = inr [create_table; broken_statement]
           /\ done = [create_table; broken_statement]
           /\ tail = [CallCommit])
          \/ (exists cause,
                @inl error Migrations
                  (ErrApply 2 "2_broken.sql"
                     (ErrDriver "pq: division by zero"))
                = inl cause
                /\ done = [create_table; broken_statement]
                /\ tail = [CallCommit])
          \/ (exists m post cause kf,
                [create_table; broken_statement] = done ++ m :: post
                /\ @inl error Migrations
                     (ErrApply 2 "2_broken.sql"
                        (ErrDriver "pq: division by zero"))
                   = inl (ErrApply (ID m) (Description m) cause)
                /\ ((tail = [CallExec (SQL m) []]
                     /\ tx_Exec DefaultConfig (SQL m) [] kf
                        = (inl cause,
                           snd (applyMigrations DefaultConfig
                                  [create_table; broken_statement] begun)))
                    \/ (exists d,
                          tail = calls_of DefaultConfig (m, d)
                          /\ tx_Exec DefaultConfig (insert_sql DefaultConfig)
                               [VInt (ID m); VText (Description m);
                                VText (SQL m); VSeconds d] kf
                             = (inl cause,
                                snd (applyMigrations DefaultConfig
                                       [create_table; broken_statement]
                                       begun)))))))
  /\ trace (snd (applyMigrations DefaultConfig
                   [create_table; broken_statement] begun))
     = trace begun
       ++ calls_of DefaultConfig (create_table, 1)
       ++ [CallExec (SQL broken_statement) []]
  /\ ((exists e delta,
         @inr error Migrations [create_table] = inl e
         /\ trace (snd (Migrate DefaultConfig [create_schema; create_table]
                          after_first))
            = trace after_first ++ delta
         /\ (statements delta = []
             \/ statements delta = [init_sql DefaultConfig]))
      \/ (exists k3 k4 rest,
            applyMigrations DefaultConfig rest k3 = (inr [create_table], k4)
            /\ rest = skipn (length (history (durable after_first)))
                        [create_schema; create_table]
            /\ strictly_ascending rest)).
Proof.
  split; [|split; [run|]];
    [|assert (Hrun : Migrate DefaultConfig [create_schema; create_table]
                       after_first
                     = (inr [create_table],
                        snd (Migrate DefaultConfig
                               [create_schema; create_table] after_first)))
        by run;
      exact (proj2 (applyMigrations_in_order_until_failure DefaultConfig)
               _ _ _ _ Hrun)].
  assert (Hrun : applyMigrations DefaultConfig
                   [create_table; broken_statement] begun
                 = (inl (ErrApply 2 "2_broken.sql"
                           (ErrDriver "pq: division by zero")),
                    snd (applyMigrations DefaultConfig
                           [create_table; broken_statement] begun)))
    by run.
  exact (proj1 (applyMigrations_in_order_until_failure DefaultConfig)
           _ _ _ _ Hrun).
Defined.

End Runs.

(* ================================================================== *)
(** * More about validation and ids                                    *)
(* ================================================================== *)

Section ValidationMore.

Lemma Migrations_Valid_from_first_failure (m : Migrations) : forall i err,
  Migrations_Valid_from i m = Some err ->
  exists (pre : Migrations) (x : Migration) (post : Migrations),
    m = pre ++ x :: post
    /\ Migrations_Valid_from i pre = None
    /\ ((ID x <> i + Z.of_nat (length pre) + 1
         /\ err = ErrUnexpectedID (ID x) (i + Z.of_nat (length pre) + 1))
        \/ (ID x = i + Z.of_nat (length pre) + 1
            /\ exists cause,
                Migration_Valid x = Some cause
                /\ err = ErrInvalidMigration (ID x) cause)).
Proof.
  induction m as [|mi rest IH]; intros i err; cbn [Migrations_Valid_from];
    [discriminate|].
  destruct (Z.eqb_spec (ID mi) (i + 1)) as [Hid|Hid]; cbn [negb].
  - destruct (Migration_Valid mi) as [cause|] eqn:Hv.
    + intros [= <-]. exists [], mi, rest. cbn.
      split; [reflexivity|]. split; [reflexivity|].
      right. split; [lia|]. exists cause. auto.
    + intros Hrest. destruct (IH _ _ Hrest) as (pre & x & post & -> & Hpre & Hx).
      exists (mi :: pre), x, post. split; [reflexivity|]. split.
      * cbn [Migrations_Valid_from].
        destruct (Z.eqb_spec (ID mi) (i + 1)); [|contradiction].
        cbn [negb]. rewrite Hv. exact Hpre.
      * cbn [length]. rewrite Nat2Z.inj_succ.
        replace (i + Z.succ (Z.of_nat (length pre)) + 1)
          with (i + 1 + Z.of_nat (length pre) + 1) by lia.
        exact Hx.
  - intros [= <-]. exists [], mi, rest. cbn.
    split; [reflexivity|]. split; [reflexivity|].
    left. split; [lia|]. f_equal. lia.
Qed.

(** X1: [Migrations.Valid] returns nil exactly when every element has the id
    of its position plus one, a non-empty description and a non-empty
    statement.  When it returns an error, the error is about the first
    element that breaks this: all elements before it pass, and the error is
    the unexpected-id error if its id is not its position plus one, else the
    error of [Migration.Valid] for it, wrapped with its id. *)
Theorem Migrations_Valid_first_failure (m : Migrations) :
  (Migrations_Valid m = None <->
   forall (i : nat) (x : Migration),
     nth_error m i = Some x ->
     ID x = Z.of_nat i + 1
     /\ Description x <> EmptyString /\ SQL x <> EmptyString)
  /\ (forall err,
        Migrations_Valid m = Some err ->
        exists (pre : Migrations) (x : Migration) (post : Migrations),
          m = pre ++ x :: post
          /\ Migrations_Valid pre = None
          /\ ((ID x <> Z.of_nat (length pre) + 1
               /\ err = ErrUnexpectedID (ID x) (Z.of_nat (length pre) + 1))
              \/ (ID x = Z.of_nat (length pre) + 1
                  /\ exists cause,
                      Migration_Valid x = Some cause
                      /\ err = ErrInvalidMigration (ID x) cause))).
Proof.
  split.
  - rewrite Migrations_Valid_ok. unfold dense, individually_valid.
    rewrite Forall_forall. split.
    + intros [Hd Hall] i x Hn. split; [exact (Hd i x Hn)|].
      apply nth_error_In in Hn. apply Hall in Hn.
      apply Migration_Valid_ok in Hn. tauto.
    + intros H. split.
      * intros i x Hn. exact (proj1 (H i x Hn)).
      * intros x Hin. apply In_nth_error in Hin as [i Hn].
        apply Migration_Valid_ok. destruct (H i x Hn) as (Hid & Hd & Hs).
        split; [lia|tauto].
  - intros err Hv. unfold Migrations_Valid in *.
    destruct (Migrations_Valid_from_first_failure m 0 err Hv)
      as (pre & x & post & Hm & Hpre & Hx).
    exists pre, x, post. split; [exact Hm|]. split; [exact Hpre|].
    exact Hx.
Qed.

Lemma Migrations_Valid_first_failure_witness :
  exists (pre : Migrations) (x : Migration) (post : Migrations),
    [create_schema; create_schema_edited; create_table] = pre ++ x :: post
    /\ Migrations_Valid pre = None
    /\ ((ID x <> Z.of_nat (length pre) + 1
         /\ ErrUnexpectedID 1 2
            = ErrUnexpectedID (ID x) (Z.of_nat (length pre) + 1))
        \/ (ID x = Z.of_nat (length pre) + 1
            /\ exists cause,
                Migration_Valid x = Some cause
                /\ ErrUnexpectedID 1 2 = ErrInvalidMigration (ID x) cause)).
Proof.
  apply (proj2 (Migrations_Valid_first_failure
                  [create_schema; create_schema_edited; create_table])).
  reflexivity.
Defined.

(** X2: for a list that [Migrations.Valid] accepts, [IDs] returns 1, 2, ...,
    up to the length of the list; in particular no id occurs twice. *)
Theorem IDs_of_valid (m : Migrations) :
  Migrations_Valid m = None ->
  IDs m = map Z.of_nat (seq 1 (length m)) /\ NoDup (IDs m).
Proof.
  intros Hv. apply Migrations_Valid_ok in Hv as [Hd _].
  apply dense_IDs in Hd. split; [exact Hd|].
  rewrite Hd. apply NoDup_map_NoDup_ForallPairs; [|apply seq_NoDup].
  intros a b _ _. apply Nat2Z.inj.
Qed.

Lemma IDs_of_valid_witness :
  IDs [create_schema; create_table] = map Z.of_nat (seq 1 2)
  /\ NoDup (IDs [create_schema; create_table]).
Proof.
  apply (IDs_of_valid [create_schema; create_table]). reflexivity.
Defined.
End ValidationMore.

(* ================================================================== *)
(** * sort.Interface                                                   *)
(* ================================================================== *)

Section SortInterface.

Lemma at_index_Some (m : Migrations) (i : Z) (x : Migration) :
  at_index m i = Some x -> 0 <= i < Len m /\ nth_error m (Z.to_nat i) = Some x.
Proof.
  unfold at_index, Len. destruct (Z.ltb_spec i 0); [discriminate|].
  intros Hn. split; [|exact Hn].
  assert (Z.to_nat i < length m)%nat by (apply nth_error_Some; congruence).
  lia.
Qed.

Lemma at_index_None (m : Migrations) (i : Z) :
  at_index m i = None <-> ~ (0 <= i < Len m).
Proof.
  unfold at_index, Len. destruct (Z.ltb_spec i 0); [split; [lia|reflexivity]|].
  rewrite nth_error_None. lia.
Qed.

(** X3: [Less] panics exactly when an index is out of range; on the elements
    it is a strict weak ordering, as [sort.Sort] requires: irreflexive,
    asymmetric, transitive, and being unordered either way is transitive
    too (it means equal ids). *)
Theorem Less_strict_weak_ordering :
  (forall (m : Migrations) (i j : Z),
      Less_at m i j = None <-> ~ (0 <= i < Len m) \/ ~ (0 <= j < Len m))
  /\ (forall a, Less a a = false)
  /\ (forall a b, Less a b = true -> Less b a = false)
  /\ (forall a b c, Less a b = true -> Less b c = true -> Less a c = true)
  /\ (forall a b, Less a b = false /\ Less b a = false <-> ID a = ID b)
  /\ (forall a b c,
        Less a b = false -> Less b a = false ->
        Less b c = false -> Less c b = false ->
        Less a c = false /\ Less c a = false).
Proof.
  split.
  { intros m i j. unfold Less_at.
    destruct (at_index m i) as [a|] eqn:Hi.
    - destruct (at_index m j) as [b|] eqn:Hj.
      + apply at_index_Some in Hi, Hj. split; [discriminate|]. tauto.
      + apply at_index_None in Hj. tauto.
    - apply at_index_None in Hi. tauto. }
  unfold Less. repeat split; intros;
    repeat match goal with
           | H : _ /\ _ |- _ => destruct H
           | H : (_ <? _) = true |- _ => apply Z.ltb_lt in H
           | H : (_ <? _) = false |- _ => apply Z.ltb_ge in H
           | |- (_ <? _) = true => apply Z.ltb_lt
           | |- (_ <? _) = false => apply Z.ltb_ge
           end; lia.
Qed.

Lemma Less_strict_weak_ordering_witness :
  Less create_schema create_table = true
  /\ Less create_table create_schema = false
  /\ Less_at [create_schema] 0 1 = None.
Proof.
  assert (H : Less create_schema create_table = true) by reflexivity.
  split; [exact H|]. split.
  - exact (proj1 (proj2 (proj2 Less_strict_weak_ordering)) _ _ H).
  - apply (proj1 Less_strict_weak_ordering [create_schema] 0 1).
    right. cbv. intros [_ Hlt]. discriminate.
Defined.

Lemma length_store_at (m : Migrations) : forall n x,
  length (store_at m n x) = length m.
Proof.
  induction m as [|y m IH]; intros [|n] x; cbn; try reflexivity.
  rewrite IH. reflexivity.
Qed.

Lemma nth_error_store_at (m : Migrations) : forall n k x,
  (n < length m)%nat ->
  nth_error (store_at m n x) k
  = if Nat.eqb k n then Some x else nth_error m k.
Proof.
  induction m as [|y m IH]; intros [|n] [|k] x Hn; cbn in *; try lia;
    try reflexivity.
  apply IH. lia.
Qed.

Lemma store_at_same (m : Migrations) : forall n x,
  nth_error m n = Some x -> store_at m n x = m.
Proof.
  induction m as [|y m IH]; intros [|n] x; cbn; try discriminate.
  - intros [= ->]. reflexivity.
  - intros Hn. rewrite (IH _ _ Hn). reflexivity.
Qed.

Lemma store_at_head_perm (rest : Migrations) : forall n a b,
  nth_error rest n = Some b ->
  Permutation (a :: rest) (b :: store_at rest n a).
Proof.
  induction rest as [|h rest IH]; intros [|n] a b; cbn; try discriminate.
  - intros [= ->]. apply perm_swap.
  - intros Hn. eapply perm_trans; [apply perm_swap|].
    eapply perm_trans; [apply perm_skip, (IH _ _ _ Hn)|]. apply perm_swap.
Qed.

Lemma store_at_swap_perm (m : Migrations) : forall i j a b,
  nth_error m i = Some a -> nth_error m j = Some b ->
  Permutation m (store_at (store_at m i b) j a).
Proof.
  induction m as [|h m IH]; intros [|i] [|j] a b; cbn; try discriminate.
  - intros [= ->] [= ->]. apply Permutation_refl.
  - intros [= ->] Hj. apply store_at_head_perm. exact Hj.
  - intros Hi [= ->]. apply store_at_head_perm. exact Hi.
  - intros Hi Hj. apply perm_skip. apply IH; assumption.
Qed.

(** X4: [Swap] panics exactly when an index is out of range.  Otherwise the
    slice keeps its length and its elements (it is a permutation of what it
    was), the elements at [i] and [j] have changed places, every other
    position is untouched, and swapping again restores the slice. *)
Theorem Swap_exchanges (m : Migrations) (i j : Z) :
  (Swap m i j = None <-> ~ (0 <= i < Len m) \/ ~ (0 <= j < Len m))
  /\ (forall m',
        Swap m i j = Some m' ->
        Len m' = Len m
        /\ Permutation m m'
        /\ at_index m' i = at_index m j
        /\ at_index m' j = at_index m i
        /\ (forall k, k <> i -> k <> j -> at_index m' k = at_index m k)
        /\ Swap m' i j = Some m).
Proof.
  unfold Swap. split.
  - destruct (at_index m i) as [a|] eqn:Hi.
    + destruct (at_index m j) as [b|] eqn:Hj.
      * apply at_index_Some in Hi, Hj. split; [discriminate|]. tauto.
      * apply at_index_None in Hj. tauto.
    + apply at_index_None in Hi. tauto.
  - intros m'. destruct (at_index m i) as [a|] eqn:Hi; [|discriminate].
    destruct (at_index m j) as [b|] eqn:Hj; [|discriminate].
    intros [= <-].
    pose proof (at_index_Some _ _ _ Hi) as [Hri Hni].
    pose proof (at_index_Some _ _ _ Hj) as [Hrj Hnj].
    unfold Len in *.
    assert (Hlen : forall x y,
               length (store_at (store_at m (Z.to_nat i) x) (Z.to_nat j) y)
               = length m)
      by (intros; rewrite !length_store_at; reflexivity).
    assert (Hat : forall k x y,
               0 <= k ->
               nth_error (store_at (store_at m (Z.to_nat i) x) (Z.to_nat j) y)
                 (Z.to_nat k)
               = if k =? j then Some y
                 else if k =? i then Some x
                      else nth_error m (Z.to_nat k)).
    { intros k x y Hk.
      rewrite nth_error_store_at by (rewrite length_store_at; lia).
      rewrite nth_error_store_at by lia.
      destruct (Z.eqb_spec k j) as [->|Hkj].
      - rewrite Nat.eqb_refl. reflexivity.
      - destruct (Nat.eqb_spec (Z.to_nat k) (Z.to_nat j)); [lia|].
        destruct (Z.eqb_spec k i) as [->|Hki].
        + rewrite Nat.eqb_refl. reflexivity.
        + destruct (Nat.eqb_spec (Z.to_nat k) (Z.to_nat i)); [lia|].
          reflexivity. }
    split; [rewrite Hlen; reflexivity|].
    split; [apply store_at_swap_perm; assumption|].
    assert (Hi' : at_index (store_at (store_at m (Z.to_nat i) b) (Z.to_nat j) a)
                    i = Some b).
    { unfold at_index. destruct (Z.ltb_spec i 0); [lia|].
      rewrite Hat by lia. rewrite Z.eqb_refl.
      destruct (Z.eqb_spec i j) as [->|_]; [|reflexivity].
      congruence. }
    assert (Hj' : at_index (store_at (store_at m (Z.to_nat i) b) (Z.to_nat j) a)
                    j = Some a).
    { unfold at_index. destruct (Z.ltb_spec j 0); [lia|].
      rewrite Hat by lia. rewrite Z.eqb_refl. reflexivity. }
    split; [rewrite Hi'; reflexivity|].
    split; [rewrite Hj'; reflexivity|].
    split.
    + intros k Hki Hkj. unfold at_index.
      destruct (Z.ltb_spec k 0); [reflexivity|].
      rewrite Hat by lia.
      destruct (Z.eqb_spec k j); [contradiction|].
      destruct (Z.eqb_spec k i); [contradiction|reflexivity].
    + rewrite Hi', Hj'. f_equal.
      apply nth_error_ext. intros n.
      replace n with (Z.to_nat (Z.of_nat n)) by lia.
      rewrite nth_error_store_at
        by (rewrite length_store_at, Hlen; lia).
      rewrite nth_error_store_at by (rewrite Hlen; lia).
      rewrite Hat by lia.
      destruct (Nat.eqb_spec (Z.to_nat (Z.of_nat n)) (Z.to_nat j)) as [He|Hne].
      * rewrite He. symmetry. exact Hnj.
      * destruct (Nat.eqb_spec (Z.to_nat (Z.of_nat n)) (Z.to_nat i))
          as [He'|Hne'].
        -- rewrite He'. symmetry. exact Hni.
        -- destruct (Z.eqb_spec (Z.of_nat n) j); [lia|].
           destruct (Z.eqb_spec (Z.of_nat n) i); [lia|reflexivity].
Qed.

Lemma Swap_exchanges_witness :
  Swap [create_schema; create_table] 0 1 = Some [create_table; create_schema]
  /\ Permutation [create_schema; create_table] [create_table; create_schema]
  /\ Swap [create_table; create_schema] 0 1
     = Some [create_schema; create_table].
Proof.
  assert (H : Swap [create_schema; create_table] 0 1
              = Some [create_table; create_schema]) by reflexivity.
  split; [exact H|].
  destruct (proj2 (Swap_exchanges [create_schema; create_table] 0 1) _ H)
    as (_ & Hperm & _ & _ & _ & Hback).
  split; [exact Hperm|exact Hback].
Defined.
End SortInterface.

(* ================================================================== *)
(** * More about verification                                          *)
(* ================================================================== *)

Section VerificationMore.

Lemma verify_error_names_recorded (R : Migrations) : forall C e,
  verify R C = inl e ->
  exists r, In r R
            /\ (e = ErrUnknownMigration (ID r)
                \/ e = ErrModifiedMigration (ID r)).
Proof.
  unfold verify. induction R as [|r R IH]; intros C e; cbn; [discriminate|].
  destruct C as [|m0 C].
  - intros [= <-]. exists r. auto.
  - destruct (Migration_eqb r m0); cbn.
    + intros He. destruct (IH _ _ He) as (r' & Hin & Hr'). exists r'. auto.
    + intros [= <-]. exists r. auto.
Qed.

(** X5: the comparison of [verifyMigrations] succeeds only if the recorded
    history is, element by element, the beginning of the candidate, and then
    it returns what follows; when it fails, the error is the unknown- or the
    modified-migration error with the id of a recorded migration. *)
Theorem verify_accepts_only_a_prefix (R C : Migrations) :
  (forall S, verify R C = inr S <-> C = R ++ S)
  /\ (forall e,
        verify R C = inl e ->
        exists r, In r R
                  /\ (e = ErrUnknownMigration (ID r)
                      \/ e = ErrModifiedMigration (ID r))).
Proof.
  split.
  - intros S. split; [apply verify_sound|].
    intros ->. apply verify_prefix.
  - apply verify_error_names_recorded.
Qed.

Lemma verify_accepts_only_a_prefix_witness :
  [create_schema; create_table] = [create_schema] ++ [create_table]
  /\ exists r, In r [create_schema]
               /\ (ErrModifiedMigration 1 = ErrUnknownMigration (ID r)
                   \/ ErrModifiedMigration 1 = ErrModifiedMigration (ID r)).
Proof.
  split.
  - apply (proj1 (verify_accepts_only_a_prefix [create_schema]
                    [create_schema; create_table])).
    reflexivity.
  - apply (proj2 (verify_accepts_only_a_prefix [create_schema]
                    [create_schema_edited])).
    reflexivity.
Defined.

(** X6: migrations added at the end of the candidate do not change the
    outcome for the history: a candidate that passed still passes and the
    added migrations are returned behind the ones that were to apply; a
    candidate in which a recorded migration was modified still fails with
    the same error. *)
Theorem verify_stable_under_new_migrations (R C added : Migrations) :
  (forall S, verify R C = inr S -> verify R (C ++ added) = inr (S ++ added))
  /\ (forall id,
        verify R C = inl (ErrModifiedMigration id) ->
        verify R (C ++ added) = inl (ErrModifiedMigration id)).
Proof.
  split.
  - intros S Hv. apply verify_sound in Hv as ->.
    rewrite <- app_assoc. apply verify_prefix.
  - revert C. unfold verify.
    induction R as [|r R IH]; intros C id; cbn; [discriminate|].
    destruct C as [|m0 C]; cbn; [discriminate|].
    destruct (Migration_eqb r m0); cbn; [apply IH|auto].
Qed.

Lemma verify_stable_under_new_migrations_witness :
  verify [create_schema] ([create_schema] ++ [create_table])
  = inr ([] ++ [create_table])
  /\ verify [create_schema] ([create_schema_edited] ++ [create_table])
     = inl (ErrModifiedMigration 1).
Proof.
  split.
  - apply (proj1 (verify_stable_under_new_migrations [create_schema]
                    [create_schema] [create_table])).
    reflexivity.
  - apply (proj2 (verify_stable_under_new_migrations [create_schema]
                    [create_schema_edited] [create_table])).
    reflexivity.
Defined.
End VerificationMore.

(* ================================================================== *)
(** * More about quoting                                               *)
(* ================================================================== *)

Section QuotingMore.

Lemma quoteIdentifier_text (name : string) :
  quoteIdentifier name
  = String dquote (double_quotes (truncate_at_NUL name) ++ str1 dquote).
Proof.
  unfold quoteIdentifier. cbv zeta.
  rewrite slice_at_IndexByte, ReplaceAll_doubles. reflexivity.
Qed.

Lemma read_identifier_quoteIdentifier (name : string) :
  read_identifier (quoteIdentifier name) = Some (truncate_at_NUL name).
Proof.
  rewrite quoteIdentifier_text. cbn [read_identifier].
  rewrite Ascii.eqb_refl. apply read_quoted_body_doubled.
Qed.

Lemma truncate_at_NUL_free (s : string) :
  free_of NUL s = true -> truncate_at_NUL s = s.
Proof.
  induction s as [|a s IH]; [reflexivity|]. cbn.
  destruct (Ascii.eqb a NUL); cbn; [discriminate|].
  intros Hs. rewrite (IH Hs). reflexivity.
Qed.

(** X7: two names are quoted to the same text exactly when they agree up to
    their first NUL byte; names without a NUL byte are quoted to the same
    text only if they are the same name. *)
Theorem quoteIdentifier_injective (a b : string) :
  (quoteIdentifier a = quoteIdentifier b
   <-> truncate_at_NUL a = truncate_at_NUL b)
  /\ (free_of NUL a = true -> free_of NUL b = true ->
      quoteIdentifier a = quoteIdentifier b -> a = b).
Proof.
  assert (Hiff : quoteIdentifier a = quoteIdentifier b
                 <-> truncate_at_NUL a = truncate_at_NUL b).
  { split.
    - intros Hq.
      pose proof (read_identifier_quoteIdentifier a) as Ha.
      rewrite Hq, read_identifier_quoteIdentifier in Ha. congruence.
    - intros Ht. rewrite !quoteIdentifier_text, Ht. reflexivity. }
  split; [exact Hiff|].
  intros Ha Hb Hq. apply Hiff in Hq.
  rewrite (truncate_at_NUL_free a Ha), (truncate_at_NUL_free b Hb) in Hq.
  exact Hq.
Qed.

Lemma quoteIdentifier_injective_witness :
  truncate_at_NUL ("ab" ++ str1 NUL ++ "c") = truncate_at_NUL "ab"
  /\ ("migrations" = "migrations")%string.
Proof.
  split.
  - apply (proj1 (quoteIdentifier_injective ("ab" ++ str1 NUL ++ "c") "ab")).
    reflexivity.
  - apply (proj2 (quoteIdentifier_injective "migrations" "migrations"));
      reflexivity.
Defined.






Lemma read_quoted_prefix_doubled (s : string) (d : ascii) (rest : string) :
  d <> dquote ->
  read_quoted_prefix (double_quotes s ++ String dquote (String d rest))
  = Some (s, String d rest).
Proof.
  intros Hd. induction s as [|a s IH].
  - cbn [double_quotes String.append read_quoted_prefix].
    rewrite Ascii.eqb_refl.
    destruct (Ascii.eqb_spec d dquote); [contradiction|reflexivity].
  - cbn [double_quotes]. destruct (Ascii.eqb_spec a dquote) as [->|Hne].
    + cbn [String.append read_quoted_prefix]. rewrite Ascii.eqb_refl.
      rewrite IH. reflexivity.
    + cbn [String.append read_quoted_prefix].
      destruct (Ascii.eqb_spec a dquote); [contradiction|].
      rewrite IH. reflexivity.
Qed.

Lemma string_app_assoc (s1 s2 s3 : string) :
  ((s1 ++ s2) ++ s3 = s1 ++ (s2 ++ s3))%string.
Proof.
  induction s1 as [|a s1 IH]; [reflexivity|]. cbn. rewrite IH. reflexivity.
Qed.

Lemma read_qualified_table (c : Config) :
  read_qualified (table c)
  = Some (truncate_at_NUL (Schema c), truncate_at_NUL (Table c)).
Proof.
  unfold table. rewrite (quoteIdentifier_text (Schema c)).
  cbn [String.append read_qualified]. rewrite Ascii.eqb_refl.
  rewrite string_app_assoc. cbn [str1 String.append].
  rewrite read_quoted_prefix_doubled by discriminate.
  cbn -[quoteIdentifier read_identifier].
  rewrite read_identifier_quoteIdentifier. reflexivity.
Qed.

(** X9: the qualified name built by [table] reads back, quoted identifier,
    dot, quoted identifier, as exactly the configured schema and table names
    cut at their first NUL byte; so two configurations whose names have no
    NUL byte get the same qualified name only if schema and table are the
    same. *)
Theorem table_reads_back (c : Config) :
  read_qualified (table c)
  = Some (truncate_at_NUL (Schema c), truncate_at_NUL (Table c))
  /\ (forall c' : Config,
        free_of NUL (Schema c) = true -> free_of NUL (Table c) = true ->
        free_of NUL (Schema c') = true -> free_of NUL (Table c') = true ->
        table c = table c' -> c = c').
Proof.
  split; [apply read_qualified_table|].
  intros c' Hs Ht Hs' Ht' Heq.
  pose proof (read_qualified_table c) as Hc.
  rewrite Heq, read_qualified_table in Hc. injection Hc as Hschema Htable.
  rewrite !truncate_at_NUL_free in Hschema, Htable by assumption.
  destruct c, c'. cbn in *. congruence.
Qed.

Lemma table_reads_back_witness :
  DefaultConfig = {| Schema := "migrations"; Table := "migrations" |}.
Proof.
  apply (proj2 (table_reads_back DefaultConfig)); reflexivity.
Defined.
End QuotingMore.

(* ================================================================== *)
(** * Sorting by id                                                    *)
(* ================================================================== *)

Section SortingFacts.

Lemma insert_by_ID_perm (x : Migration) (l : Migrations) :
  Permutation (insert_by_ID x l) (x :: l).
Proof.
  induction l as [|y l IH]; cbn; [apply Permutation_refl|].
  destruct (Less y x); [|apply Permutation_refl].
  eapply perm_trans; [apply perm_skip, IH|apply perm_swap].
Qed.

Lemma Sort_perm (l : Migrations) : Permutation (Sort l) l.
Proof.
  induction l as [|x l IH]; cbn; [apply perm_nil|].
  eapply perm_trans; [apply insert_by_ID_perm|apply perm_skip, IH].
Qed.

Lemma insert_by_ID_sorted (x : Migration) (l : Migrations) :
  sorted_by_ID l -> sorted_by_ID (insert_by_ID x l).
Proof.
  unfold sorted_by_ID.
  induction l as [|y l IH]; cbn; [auto|].
  intros [Hy Hl]. unfold Less. destruct (Z.ltb_spec (ID y) (ID x)).
  - cbn. split; [|apply IH; exact Hl].
    eapply Permutation_Forall; [apply Permutation_sym, insert_by_ID_perm|].
    constructor; [lia|exact Hy].
  - cbn. split; [|split; assumption].
    constructor; [exact H|].
    eapply Forall_impl; [|exact Hy]. cbn. intros; lia.
Qed.

Lemma Sort_sorted (l : Migrations) : sorted_by_ID (Sort l).
Proof.
  induction l as [|x l IH]; cbn; [exact I|].
  apply insert_by_ID_sorted. exact IH.
Qed.

(** Two lists in ascending order of a key with the same elements are the
    same list, when no key occurs twice. *)
Lemma ascending_by_unique {A : Type} (key : A -> Z)
  (dec : forall a b : A, {a = b} + {a <> b}) (l : list A) : forall l',
  ascending_by key l -> ascending_by key l' ->
  NoDup (map key l) -> Permutation l l' -> l = l'.
Proof.
  induction l as [|a r IH]; intros l' Hs Hs' Hnd Hp.
  - apply Permutation_nil in Hp. congruence.
  - destruct l' as [|b r'].
    { apply Permutation_sym, Permutation_nil in Hp. discriminate. }
    cbn in Hs, Hs', Hnd. destruct Hs as [Ha Hr], Hs' as [Hb Hr'].
    inversion Hnd as [|? ? Hnotin Hnd']; subst.
    assert (Hab : a = b).
    { destruct (dec a b) as [Heq|Hne]; [exact Heq|]. exfalso.
      assert (Hin_a : In a r').
      { assert (Hin : In a (b :: r'))
          by (eapply Permutation_in; [exact Hp|left; reflexivity]).
        destruct Hin as [Heq|Hin]; [congruence|exact Hin]. }
      assert (Hin_b : In b r).
      { assert (Hin : In b (a :: r))
          by (eapply Permutation_in;
              [apply Permutation_sym; exact Hp|left; reflexivity]).
        destruct Hin as [Heq|Hin]; [congruence|exact Hin]. }
      rewrite Forall_forall in Ha, Hb.
      pose proof (Ha _ Hin_b). pose proof (Hb _ Hin_a).
      apply Hnotin. replace (key a) with (key b) by lia.
      apply in_map. exact Hin_b. }
    subst b. f_equal.
    apply IH; try assumption.
    eapply Permutation_cons_inv. exact Hp.
Qed.

Lemma Migration_eq_dec (a b : Migration) : {a = b} + {a <> b}.
Proof.
  destruct (Migration_eqb a b) eqn:He.
  - left. apply Migration_eqb_eq. exact He.
  - right. intros Heq. apply Migration_eqb_eq in Heq. congruence.
Qed.

(** Sorting does not depend on the order of the input, when no id occurs
    twice. *)
Lemma Sort_order_independent (l l' : Migrations) :
  Permutation l l' -> NoDup (IDs l) -> Sort l = Sort l'.
Proof.
  intros Hp Hnd.
  apply (ascending_by_unique ID Migration_eq_dec).
  - apply Sort_sorted.
  - apply Sort_sorted.
  - eapply Permutation_NoDup; [|exact Hnd].
    apply Permutation_map, Permutation_sym, Sort_perm.
  - eapply perm_trans; [apply Sort_perm|].
    eapply perm_trans; [exact Hp|apply Permutation_sym, Sort_perm].
Qed.

Lemma ascending_by_map {A : Type} (key : A -> Z) (l : list A) :
  ascending_by key l -> ascending_by (fun z => z) (map key l).
Proof.
  induction l as [|x l IH]; cbn; [auto|].
  intros [Hx Hl]. split; [|apply IH; exact Hl].
  apply Forall_map. exact Hx.
Qed.

Lemma ascending_seq (n : nat) : forall start,
  ascending_by (fun z => z) (map Z.of_nat (seq start n)).
Proof.
  induction n as [|n IH]; intros start; cbn; [exact I|].
  split; [|apply IH].
  apply Forall_map, Forall_forall. intros k Hk. apply in_seq in Hk. lia.
Qed.

(** A list whose ids are 1..N in some order and whose entries are valid one
    by one is accepted once it is sorted. *)
Lemma Sort_then_Valid (l : Migrations) :
  individually_valid l ->
  Permutation (IDs l) (map Z.of_nat (seq 1 (length l))) ->
  Migrations_Valid (Sort l) = None.
Proof.
  intros Hall Hids.
  assert (Hlen : length (Sort l) = length l)
    by (apply Permutation_length, Sort_perm).
  assert (Hnd : NoDup (map Z.of_nat (seq 1 (length l)))).
  { apply NoDup_map_NoDup_ForallPairs; [|apply seq_NoDup].
    intros a b _ _. apply Nat2Z.inj. }
  apply Migrations_Valid_ok. split.
  - apply dense_IDs. rewrite Hlen. unfold IDs.
    apply (ascending_by_unique (fun z => z) Z.eq_dec).
    + apply ascending_by_map, Sort_sorted.
    + apply ascending_seq.
    + rewrite map_id.
      eapply Permutation_NoDup; [|exact Hnd].
      apply Permutation_sym.
      eapply perm_trans; [apply Permutation_map, Sort_perm|exact Hids].
    + eapply perm_trans; [apply Permutation_map, Sort_perm|exact Hids].
  - unfold individually_valid.
    eapply Permutation_Forall; [apply Permutation_sym, Sort_perm|exact Hall].
Qed.
End SortingFacts.

(* ================================================================== *)
(** * LoadMigrations                                                   *)
(* ================================================================== *)

Section LoaderFacts.
Variable FindStringSubmatch : string -> list string.
Variable Sscan : string -> error + Z.

Let entry' := entry FindStringSubmatch Sscan.
Let loadEach' := loadEach FindStringSubmatch Sscan.
Let matches' := matches FindStringSubmatch.

(** What a name that matches and loads contributes. *)
Lemma entry_inv (fs : FileSystem) (name : string) (m : Migration) :
  In m (entry' fs name) ->
  Description m = name
  /\ entry' fs name = [m]
  /\ exists whole id_text,
      FindStringSubmatch name = [whole; id_text]
      /\ Sscan id_text = inr (ID m)
      /\ readFile fs name = inr (SQL m).
Proof.
  unfold entry', entry.
  destruct (FindStringSubmatch name) as [|whole [|id_text [|x rest]]] eqn:Hm;
    try contradiction.
  destruct (Sscan id_text) as [e|id] eqn:Hs; [contradiction|].
  destruct (readFile fs name) as [e|data] eqn:Hr; [contradiction|].
  intros [<-|[]]. cbn. split; [reflexivity|]. split; [reflexivity|].
  exists whole, id_text. auto.
Qed.

Lemma length_two (l : list string) :
  length l = 2%nat -> exists whole id_text, l = [whole; id_text].
Proof.
  destruct l as [|whole [|id_text [|x more]]]; cbn; try discriminate.
  intros _. eauto.
Qed.

(** A name the pattern does not match is passed over. *)
Lemma loadEach_skip (fs : FileSystem) (name : string) (rest : list string)
  (ms0 : Migrations) :
  length (FindStringSubmatch name) <> 2%nat ->
  loadEach' fs (name :: rest) ms0 = loadEach' fs rest ms0
  /\ entry' fs name = [].
Proof.
  unfold loadEach', entry', entry. cbn [loadEach].
  destruct (FindStringSubmatch name) as [|whole [|id_text [|x more]]];
    cbn; intros Hno; try (split; reflexivity).
  exfalso. apply Hno. reflexivity.
Qed.

(** The loop, whatever it returns. *)
Lemma loadEach_inv (fs : FileSystem) (files : list string) : forall ms0,
  match loadEach' fs files ms0 with
  | inr ms =>
      ms = ms0 ++ flat_map (entry' fs) files
      /\ Forall (fun name => matches' name -> entry' fs name <> []) files
  | inl e =>
      exists pre name post whole id_text,
        files = pre ++ name :: post
        /\ Forall (fun name => matches' name -> entry' fs name <> []) pre
        /\ FindStringSubmatch name = [whole; id_text]
        /\ ((exists cause,
                Sscan id_text = inl cause /\ e = ErrBadID name cause)
            \/ (exists id cause,
                  Sscan id_text = inr id
                  /\ readFile fs name = inl cause
                  /\ e = ErrCouldNotRead name cause))
  end.
Proof.
  induction files as [|name rest IH]; intros ms0.
  - cbn. rewrite app_nil_r. split; [reflexivity|constructor].
  - destruct (Nat.eq_dec (length (FindStringSubmatch name)) 2) as [Hyes|Hno].
    + destruct (length_two _ Hyes) as (whole & id_text & Hm).
      assert (Hloads : forall id data,
                 Sscan id_text = inr id -> readFile fs name = inr data ->
                 entry' fs name
                 = [{| ID := id; Description := name; SQL := data |}]).
      { intros id data Hs Hr. unfold entry', entry.
        rewrite Hm, Hs, Hr. reflexivity. }
      unfold loadEach'. cbn [loadEach]. rewrite Hm.
      destruct (Sscan id_text) as [cause|id] eqn:Hs.
      { exists [], name, rest, whole, id_text.
        split; [reflexivity|]. split; [constructor|]. split; [exact Hm|].
        left. exists cause. auto. }
      destruct (readFile fs name) as [cause|data] eqn:Hr.
      { exists [], name, rest, whole, id_text.
        split; [reflexivity|]. split; [constructor|]. split; [exact Hm|].
        right. exists id, cause. auto. }
      specialize (IH (ms0 ++ [{| ID := id; Description := name;
                                 SQL := data |}])).
      fold loadEach'.
      destruct (loadEach' fs rest _) as [e|ms].
      * destruct IH as (pre & n & post & whole' & id_text' & -> & Hpre & Hrest).
        exists (name :: pre), n, post, whole', id_text'.
        split; [reflexivity|]. split; [|exact Hrest].
        constructor; [|exact Hpre].
        intros _. rewrite (Hloads id data eq_refl eq_refl). discriminate.
      * destruct IH as [-> Hall]. split.
        -- cbn [flat_map]. rewrite (Hloads id data eq_refl eq_refl).
           rewrite <- app_assoc. reflexivity.
        -- constructor; [|exact Hall].
           intros _. rewrite (Hloads id data eq_refl eq_refl). discriminate.
    + destruct (loadEach_skip fs name rest ms0 Hno) as [-> Hentry].
      specialize (IH ms0).
      destruct (loadEach' fs rest ms0) as [e|ms].
      * destruct IH as (pre & n & post & whole & id_text & -> & Hpre & Hrest).
        exists (name :: pre), n, post, whole, id_text.
        split; [reflexivity|]. split; [|exact Hrest].
        constructor; [intros Hm; contradiction|exact Hpre].
      * destruct IH as [-> Hall]. split.
        -- cbn [flat_map]. rewrite Hentry. reflexivity.
        -- constructor; [intros Hm; contradiction|exact Hall].
Qed.

(** The loop succeeds when every name that matches loads. *)
Lemma loadEach_ok (fs : FileSystem) (files : list string) : forall ms0,
  Forall (fun name => matches' name -> entry' fs name <> []) files ->
  loadEach' fs files ms0 = inr (ms0 ++ flat_map (entry' fs) files).
Proof.
  intros ms0 Hall.
  pose proof (loadEach_inv fs files ms0) as Hinv.
  destruct (loadEach' fs files ms0) as [e|ms].
  - exfalso.
    destruct Hinv as (pre & name & post & whole & id_text & -> & _ & Hm & He).
    apply Forall_app in Hall as [_ Hall]. inversion Hall as [|? ? Hname _].
    apply Hname.
    + unfold matches', matches. rewrite Hm. reflexivity.
    + unfold entry', entry. rewrite Hm.
      destruct He as [(cause & -> & _)|(id & cause & -> & -> & _)];
        reflexivity.
  - destruct Hinv as [-> _]. reflexivity.
Qed.

(** X10: when [LoadMigrations] succeeds, the directory was opened and
    listed, the result is in ascending order of id, and it holds exactly one
    migration for each listed name the pattern matches: its description is
    the name, its id is what [Sscan] read from the first group, its
    statement is the content of the file. *)
Theorem LoadMigrations_sorted_and_complete (fs : FileSystem) (ms : Migrations) :
  LoadMigrations FindStringSubmatch Sscan fs = inr ms ->
  exists dir files,
    fs "."%string = inr dir
    /\ Readdir dir = inr files
    /\ sorted_by_ID ms
    /\ Permutation ms (flat_map (entry FindStringSubmatch Sscan fs) files)
    /\ (forall m,
          In m ms ->
          In (Description m) files
          /\ exists whole id_text,
              FindStringSubmatch (Description m) = [whole; id_text]
              /\ Sscan id_text = inr (ID m)
              /\ readFile fs (Description m) = inr (SQL m))
    /\ (forall name,
          In name files -> matches FindStringSubmatch name ->
          exists m, In m ms /\ Description m = name).
Proof.
  unfold LoadMigrations.
  destruct (fs "."%string) as [e|dir] eqn:Hopen; [discriminate|].
  destruct (Readdir dir) as [e|files] eqn:Hlist; [discriminate|].
  pose proof (loadEach_inv fs files []) as Hinv. fold loadEach'.
  destruct (loadEach' fs files []) as [e|l]; [discriminate|].
  destruct Hinv as [-> Hall]. cbn [app]. intros [= <-].
  exists dir, files. split; [reflexivity|]. split; [exact Hlist|].
  split; [apply Sort_sorted|]. split; [apply Sort_perm|]. split.
  - intros m Hin.
    apply (Permutation_in _ (Sort_perm _)) in Hin.
    apply in_flat_map in Hin as (name & Hname & Hm).
    destruct (entry_inv fs name m Hm) as (<- & _ & Hfacts).
    split; assumption.
  - intros name Hname Hmatch.
    rewrite Forall_forall in Hall. specialize (Hall name Hname Hmatch).
    fold entry'.
    destruct (entry' fs name) as [|m rest] eqn:He; [contradiction|].
    assert (Hm : In m (entry' fs name)) by (rewrite He; left; reflexivity).
    exists m. split.
    + apply (Permutation_in _ (Permutation_sym (Sort_perm _))).
      apply in_flat_map. exists name. auto.
    + exact (proj1 (entry_inv fs name m Hm)).
Qed.

(** X11: when [LoadMigrations] fails, either the directory could not be
    opened or listed and that error is returned as it is, or the error is
    about the first listed name that matches the pattern and does not load:
    a bad-id error with the error of [Sscan], checked first, or else a
    could-not-read error with the error of opening or reading the file. *)
Theorem LoadMigrations_first_error (fs : FileSystem) (e : load_error) :
  LoadMigrations FindStringSubmatch Sscan fs = inl e ->
  (exists err,
      e = ErrFileSystem err
      /\ (fs "."%string = inl err
          \/ exists dir, fs "."%string = inr dir /\ Readdir dir = inl err))
  \/ (exists dir pre name post whole id_text,
        fs "."%string = inr dir
        /\ Readdir dir = inr (pre ++ name :: post)
        /\ Forall (fun n => matches FindStringSubmatch n ->
                            entry FindStringSubmatch Sscan fs n <> []) pre
        /\ FindStringSubmatch name = [whole; id_text]
        /\ ((exists cause,
                Sscan id_text = inl cause /\ e = ErrBadID name cause)
            \/ (exists id cause,
                  Sscan id_text = inr id
                  /\ readFile fs name = inl cause
                  /\ e = ErrCouldNotRead name cause))).
Proof.
  unfold LoadMigrations.
  destruct (fs "."%string) as [err|dir] eqn:Hopen.
  { intros [= <-]. left. exists err. auto. }
  destruct (Readdir dir) as [err|files] eqn:Hlist.
  { intros [= <-]. left. exists err. split; [reflexivity|]. right. eauto. }
  pose proof (loadEach_inv fs files []) as Hinv. fold loadEach'.
  destruct (loadEach' fs files []) as [e'|l]; [|discriminate].
  intros [= <-]. right.
  destruct Hinv as (pre & name & post & whole & id_text & -> & Hpre & Hm & He).
  exists dir, pre, name, post, whole, id_text. auto.
Qed.

Lemma loadEach_frame (fs fs' : FileSystem) (files : list string) :
  (forall name whole id_text id,
      FindStringSubmatch name = [whole; id_text] ->
      Sscan id_text = inr id ->
      readFile fs name = readFile fs' name) ->
  forall ms0, loadEach' fs files ms0 = loadEach' fs' files ms0.
Proof.
  intros Hsame. unfold loadEach'.
  induction files as [|name rest IH]; intros ms0; cbn [loadEach];
    [reflexivity|].
  destruct (FindStringSubmatch name) as [|whole [|id_text [|x more]]] eqn:Hm;
    try apply IH.
  destruct (Sscan id_text) as [cause|id] eqn:Hs; [reflexivity|].
  rewrite <- (Hsame name whole id_text id Hm Hs).
  destruct (readFile fs name); [reflexivity|apply IH].
Qed.

(** X12: [LoadMigrations] reads a file only if its name matches the pattern
    and its id scans: two file systems with the same directory that agree on
    those files give the same result, whatever the other files hold and
    whether they can be read at all. *)
Theorem LoadMigrations_reads_only_matching (fs fs' : FileSystem) :
  fs "."%string = fs' "."%string ->
  (forall name whole id_text id,
      FindStringSubmatch name = [whole; id_text] ->
      Sscan id_text = inr id ->
      readFile fs name = readFile fs' name) ->
  LoadMigrations FindStringSubmatch Sscan fs
  = LoadMigrations FindStringSubmatch Sscan fs'.
Proof.
  intros Hdir Hsame. unfold LoadMigrations. rewrite <- Hdir.
  destruct (fs "."%string) as [err|dir]; [reflexivity|].
  destruct (Readdir dir) as [err|files]; [reflexivity|].
  fold loadEach'. rewrite (loadEach_frame fs fs' files Hsame). reflexivity.
Qed.

Lemma flat_map_agree {A C : Type} (f g : A -> list C) (l : list A) :
  (forall a, In a l -> f a = g a) -> flat_map f l = flat_map g l.
Proof.
  induction l as [|a l IH]; intros Hfg; [reflexivity|]. cbn.
  rewrite (Hfg a (or_introl eq_refl)), IH; [reflexivity|].
  intros b Hb. apply Hfg. right. exact Hb.
Qed.

Lemma entry_same (fs fs' : FileSystem) (name : string) :
  readFile fs name = readFile fs' name -> entry' fs name = entry' fs' name.
Proof. intros Hr. unfold entry', entry. rewrite Hr. reflexivity. Qed.

(** X13: the result does not depend on the order in which the directory is
    listed: if [LoadMigrations] succeeds with a result in which no id occurs
    twice, it returns the same result for a directory that lists the same
    names in another order and holds the same files. *)
Theorem LoadMigrations_order_independent
  (fs fs' : FileSystem) (dir dir' : File) (files files' : list string)
  (ms : Migrations) :
  fs "."%string = inr dir -> Readdir dir = inr files ->
  fs' "."%string = inr dir' -> Readdir dir' = inr files' ->
  Permutation files files' ->
  (forall name, In name files -> readFile fs name = readFile fs' name) ->
  LoadMigrations FindStringSubmatch Sscan fs = inr ms ->
  NoDup (IDs ms) ->
  LoadMigrations FindStringSubmatch Sscan fs' = inr ms.
Proof.
  intros Hopen Hlist Hopen' Hlist' Hperm Hsame.
  unfold LoadMigrations. rewrite Hopen, Hlist, Hopen', Hlist'.
  pose proof (loadEach_inv fs files []) as Hinv. fold loadEach'.
  destruct (loadEach' fs files []) as [e|l]; [discriminate|].
  destruct Hinv as [-> Hall]. cbn [app]. intros [= <-] Hnd.
  assert (Hentries : forall name, In name files' ->
                                  entry' fs' name = entry' fs name).
  { intros name Hin. symmetry. apply entry_same, Hsame.
    eapply Permutation_in; [apply Permutation_sym; exact Hperm|exact Hin]. }
  assert (Hall' : Forall (fun name => matches' name -> entry' fs' name <> [])
                    files').
  { apply Forall_forall. intros name Hin Hm.
    rewrite (Hentries name Hin).
    rewrite Forall_forall in Hall. apply Hall; [|exact Hm].
    eapply Permutation_in; [apply Permutation_sym; exact Hperm|exact Hin]. }
  rewrite (loadEach_ok fs' files' [] Hall'). cbn [app]. f_equal.
  symmetry. apply Sort_order_independent.
  - eapply perm_trans; [apply Permutation_flat_map; exact Hperm|].
    rewrite (flat_map_agree (entry' fs') (entry' fs) files').
    + apply Permutation_refl.
    + intros name Hin. apply Hentries. exact Hin.
  - eapply Permutation_NoDup; [|exact Hnd].
    apply Permutation_map, Sort_perm.
Qed.

(** X14: a result of [LoadMigrations] whose ids are 1..N in some order, with
    non-empty descriptions and statements, is accepted by
    [Migrations.Valid]: the loader has put it in the order the check
    expects. *)
Theorem LoadMigrations_then_Valid (fs : FileSystem) (ms : Migrations) :
  LoadMigrations FindStringSubmatch Sscan fs = inr ms ->
  individually_valid ms ->
  Permutation (IDs ms) (map Z.of_nat (seq 1 (length ms))) ->
  Migrations_Valid ms = None.
Proof.
  unfold LoadMigrations.
  destruct (fs "."%string) as [e|dir]; [discriminate|].
  destruct (Readdir dir) as [e|files]; [discriminate|].
  destruct (loadEach _ _ fs files []) as [e|l]; [discriminate|].
  intros [= <-] Hall Hids.
  assert (Hlen : length (Sort l) = length l)
    by (apply Permutation_length, Sort_perm).
  apply Sort_then_Valid.
  - eapply Permutation_Forall; [apply Sort_perm|exact Hall].
  - rewrite <- Hlen.
    eapply perm_trans; [|exact Hids].
    apply Permutation_map, Permutation_sym, Sort_perm.
Qed.
End LoaderFacts.

Section LoaderRuns.

(** [TestLoadMigrations] *)
Example test_LoadMigrations :
  LoadMigrations ascii_name_match scan_decimal test_dir
  = inr [{| ID := 1; Description := "1_foo.sql"; SQL := "SELECT 1" |};
         {| ID := 2; Description := "2_bar.sql"; SQL := "SELECT 2" |};
         {| ID := 10; Description := "10_sort.sql"; SQL := "SELECT 10" |}].
Proof. run. Qed.

Lemma LoadMigrations_sorted_and_complete_witness :
  sorted_by_ID
    [{| ID := 1; Description := "1_foo.sql"; SQL := "SELECT 1" |};
     {| ID := 2; Description := "2_bar.sql"; SQL := "SELECT 2" |};
     {| ID := 10; Description := "10_sort.sql"; SQL := "SELECT 10" |}].
Proof.
  assert (Hrun : LoadMigrations ascii_name_match scan_decimal test_dir
                 = inr [{| ID := 1; Description := "1_foo.sql";
                           SQL := "SELECT 1" |};
                        {| ID := 2; Description := "2_bar.sql";
                           SQL := "SELECT 2" |};
                        {| ID := 10; Description := "10_sort.sql";
                           SQL := "SELECT 10" |}])
    by run.
  destruct (LoadMigrations_sorted_and_complete _ _ _ _ Hrun)
    as (dir & files & _ & _ & Hsorted & _).
  exact Hsorted.
Defined.

Lemma LoadMigrations_first_error_witness :
  (exists err,
      ErrCouldNotRead "3_gone.sql" (ErrDriver "file does not exist")
      = ErrFileSystem err
      /\ (test_dir_gone "."%string = inl err
          \/ exists dir,
               test_dir_gone "."%string = inr dir /\ Readdir dir = inl err))
  \/ (exists dir pre name post whole id_text,
        test_dir_gone "."%string = inr dir
        /\ Readdir dir = inr (pre ++ name :: post)
        /\ Forall (fun n => matches ascii_name_match n ->
                            entry ascii_name_match scan_decimal test_dir_gone n
                            <> []) pre
        /\ ascii_name_match name = [whole; id_text]
        /\ ((exists cause,
                scan_decimal id_text = inl cause
                /\ ErrCouldNotRead "3_gone.sql" (ErrDriver "file does not exist")
                   = ErrBadID name cause)
            \/ (exists id cause,
                  scan_decimal id_text = inr id
                  /\ readFile test_dir_gone name = inl cause
                  /\ ErrCouldNotRead "3_gone.sql"
                       (ErrDriver "file does not exist")
                     = ErrCouldNotRead name cause))).
Proof.
  apply (LoadMigrations_first_error ascii_name_match scan_decimal
           test_dir_gone).
  run.
Defined.

Lemma LoadMigrations_reads_only_matching_witness :
  LoadMigrations ascii_name_match scan_decimal test_dir
  = LoadMigrations ascii_name_match scan_decimal test_dir_locked.
Proof.
  apply LoadMigrations_reads_only_matching.
  - reflexivity.
  - intros name whole id_text id Hmatch _.
    unfold readFile, test_dir_locked.
    destruct (String.eqb_spec name "invalid.sql") as [->|_];
      [discriminate|reflexivity].
Defined.

Lemma LoadMigrations_order_independent_witness :
  LoadMigrations ascii_name_match scan_decimal test_dir_relisted
  = inr [{| ID := 1; Description := "1_foo.sql"; SQL := "SELECT 1" |};
         {| ID := 2; Description := "2_bar.sql"; SQL := "SELECT 2" |};
         {| ID := 10; Description := "10_sort.sql"; SQL := "SELECT 10" |}].
Proof.
  apply (LoadMigrations_order_independent ascii_name_match scan_decimal
           test_dir test_dir_relisted
           {| Readdir := inr test_listing;
              ReadAll := inl (ErrDriver "is a directory") |}
           {| Readdir := inr (rev test_listing);
              ReadAll := inl (ErrDriver "is a directory") |}
           test_listing (rev test_listing)).
  - reflexivity.
  - reflexivity.
  - reflexivity.
  - reflexivity.
  - apply Permutation_rev.
  - intros name Hin.
    unfold readFile, test_dir, test_dir_relisted, test_files.
    destruct (String.eqb name "."); reflexivity.
  - run.
  - repeat constructor; cbn; intuition discriminate.
Defined.

Lemma LoadMigrations_then_Valid_witness :
  Migrations_Valid
    [{| ID := 1; Description := "1_foo.sql"; SQL := "SELECT 1" |};
     {| ID := 2; Description := "2_bar.sql"; SQL := "SELECT 2" |}]
  = None.
Proof.
  apply (LoadMigrations_then_Valid ascii_name_match scan_decimal
           test_dir_pair).
  - run.
  - repeat constructor.
  - apply Permutation_refl.
Defined.
End LoaderRuns.

(* ================================================================== *)
(** * More about Migrate                                               *)
(* ================================================================== *)

Section MigrateMore.
Context `{B : Backend}.
Variable c : Config.

(** X15: [Migrate] never returns with a transaction of its own open.
    Either it made no call or only a [Begin] that failed, and the
    connection's transaction slot is as it was; or it began a transaction,
    and then its last call is the deferred [Rollback] and no transaction is
    open, whether it returns an error or the applied migrations. *)
Theorem Migrate_closes_its_transaction (ms : Migrations) k r k' :
  Migrate c ms k = (r, k') ->
  (tx k' = tx k
   /\ exists e,
       r = inl e
       /\ ((Migrations_Valid ms = Some e /\ trace k' = trace k)
           \/ (db_Begin k = (inl e, k')
               /\ trace k' = trace k ++ [CallBegin])))
  \/ (tx k' = None
      /\ exists calls,
          trace k' = trace k ++ CallBegin :: calls ++ [CallRollback]).
Proof.
  unfold Migrate. destruct (Migrations_Valid ms) as [err|].
  { intros [= <- <-]. left. split; [reflexivity|]. exists err. auto. }
  intros Hrun.
  apply bind_run in Hrun as [(e & Hbegin & ->)|([] & k1 & Hbegin & Hrun)].
  { left. pose proof (db_Begin_run _ _ _ Hbegin) as (_ & Htr & _).
    split.
    - unfold db_Begin in Hbegin. cbn in Hbegin.
      destruct (fault CallBegin (durable k)); [|discriminate].
      injection Hbegin as _ <-. reflexivity.
    - exists e. auto. }
  right. apply db_Begin_run in Hbegin as (_ & Htr1 & _).
  unfold defer in Hrun.
  match type of Hrun with
  | (let (_, _) := ?body k1 in _) = _ =>
      destruct (body k1) as [r2 k2] eqn:Hbody
  end.
  injection Hrun as -> <-.
  destruct (tx_Rollback_run k2) as (_ & Htx & Htr).
  split; [exact Htx|].
  assert (Hgrow : exists calls, trace k2 = trace k1 ++ calls).
  { apply bind_run in Hbody as [(e & Hinit & _)|([] & ka & Hinit & Hbody)].
    { apply tx_Exec_run in Hinit as [Hi _]. eauto. }
    apply tx_Exec_run in Hinit as [Hi _].
    apply bind_run in Hbody as [(e & Hver & _)|(ms' & k3 & Hver & Happly)].
    { unfold verifyMigrations in Hver. cbv zeta in Hver.
      apply bind_run in Hver as [(e0 & Hq & _)|(rows & kq & Hq & Hver)];
        apply tx_Query_run in Hq as (Htrq & _).
      - exists [CallExec (init_sql c) []; CallQuery (select_sql c)].
        rewrite Htrq, Hi, <- app_assoc. reflexivity.
      - exists [CallExec (init_sql c) []; CallQuery (select_sql c)].
        destruct (verifyRows _ _); [|destruct (rows_Err rows)];
          injection Hver as _ <-; rewrite Htrq, Hi, <- app_assoc;
          reflexivity. }
    assert (Htr3 : trace k3 = trace ka ++ [CallQuery (select_sql c)]).
    { unfold verifyMigrations in Hver. cbv zeta in Hver.
      apply bind_run in Hver as [(e0 & _ & [=])|(rows & kq & Hq & Hver)].
      apply tx_Query_run in Hq as (Htrq & _).
      destruct (verifyRows _ _); [discriminate|].
      destruct (rows_Err rows); [discriminate|].
      injection Hver as _ <-. exact Htrq. }
    unfold applyMigrations in Happly. cbv zeta in Happly.
    apply bind_run in Happly as [(e & Heach & _)|([] & k4 & Heach & Happly)].
    { destruct (applyEach_trace c _ _ _ _ Heach)
        as (pre & ds & tail & _ & Htr4 & _).
      eexists. rewrite Htr4, Htr3, Hi, <- !app_assoc. reflexivity. }
    destruct (applyEach_trace c _ _ _ _ Heach)
      as (pre & ds & tail & _ & Htr4 & _).
    apply bind_run in Happly as [(e & Hcommit & _)|([] & k5 & Hcommit & Hret)].
    - apply tx_Commit_run in Hcommit as (_ & _ & _ & Htr5).
      eexists. rewrite Htr5, Htr4, Htr3, Hi, <- !app_assoc. reflexivity.
    - injection Hret as _ <-.
      apply tx_Commit_run in Hcommit as (_ & _ & _ & Htr5).
      eexists. rewrite Htr5, Htr4, Htr3, Hi, <- !app_assoc. reflexivity. }
  destruct Hgrow as [calls Hgrow]. exists calls.
  rewrite Htr, Hgrow, Htr1, <- !app_assoc. reflexivity.
Qed.

(** X16: when the recorded history is not the beginning of the candidate,
    [Migrate] returns an error, the durable store stays as it was, and no
    statement of a migration is run: the only statement without arguments
    that may have run is the one of [init]. *)
Theorem Migrate_rejects_changed_history (ms : Migrations) k r k' :
  (forall rest, ms <> history (durable k) ++ rest) ->
  Migrate c ms k = (r, k') ->
  exists e calls,
    r = inl e
    /\ durable k' = durable k
    /\ trace k' = trace k ++ calls
    /\ (statements calls = [] \/ statements calls = [init_sql c]).
Proof.
  intros Hnot Hrun.
  destruct (Migrate_phases c _ _ _ _ Hrun)
    as [(e & calls & -> & Htr & Hst)
       |(s & k3 & k4 & rest & _ & Hver & _)].
  - exists e, calls. split; [reflexivity|].
    split; [exact (Migrate_error_durable c _ _ _ _ Hrun)|]. auto.
  - exfalso. apply verify_sound in Hver. exact (Hnot rest Hver).
Qed.

(** X17: with a valid candidate and a database that answers ([Begin], the
    statement of [init] and the query go through), an error of the
    comparison with the recorded history is what [Migrate] returns: the
    unknown- or modified-migration error with the id of the recorded
    migration. *)
Theorem Migrate_returns_verify_error (ms : Migrations) (e : error) k :
  Migrations_Valid ms = None ->
  fault CallBegin (durable k) = None ->
  fault (CallExec (init_sql c) []) (durable k) = None ->
  fault (CallQuery (select_sql c)) (create_if_absent (durable k)) = None ->
  verify (history (durable k)) ms = inl e ->
  fst (Migrate c ms k) = inl e.
Proof.
  intros Hv Hf1 Hf2 Hf3 Hver.
  unfold Migrate. rewrite Hv.
  unfold bind at 1. rewrite (db_Begin_ok k Hf1).
  set (k1 := with_tx _ _).
  unfold defer, bind at 1. unfold init.
  rewrite (tx_Exec_ok c (init_sql c) [] k1 _ _ eq_refl Hf2 (execute_init c _)).
  cbn [started working].
  set (k2 := with_tx _ _).
  unfold bind at 1.
  rewrite (verifyMigrations_run c ms k2 _ _ eq_refl
             (create_if_absent_rows (durable k)) Hf3).
  cbn [working]. rewrite history_create_if_absent, Hver. reflexivity.
Qed.

(** X18: deployments compose.  After a call that succeeded with candidate
    [ms], a call with [ms ++ more] that succeeds returns exactly [more];
    the recorded history is then [ms ++ more], and the rows written by the
    first call are still in place in front of the new ones.  The statements
    of the migrations are assumed to leave the bookkeeping table alone. *)
Theorem Migrate_twice_extends (ms more first second : Migrations) k k1 k2 :
  keeps_bookkeeping B ->
  Migrate c ms k = (inr first, k1) ->
  Migrate c (ms ++ more) k1 = (inr second, k2) ->
  second = more
  /\ history (durable k2) = ms ++ more
  /\ exists rows1 rows2,
      recorded_rows (durable k2)
      = recorded_rows (durable k) ++ rows1 ++ rows2
      /\ map scan_row rows1 = first
      /\ map scan_row rows2 = more.
Proof.
  intros Hframe Hrun1 Hrun2.
  destruct (Migrate_success_rows c _ _ _ _ Hframe Hrun1)
    as (rows1 & Hbk1 & Hrows1 & Hh1 & _).
  destruct (Migrate_success_rows c _ _ _ _ Hframe Hrun2)
    as (rows2 & Hbk2 & Hrows2 & Hh2 & Hms2).
  rewrite Hh1 in Hms2. apply app_inv_head in Hms2.
  split; [symmetry; exact Hms2|]. split; [exact Hh2|].
  exists rows1, rows2.
  split; [|split; [exact Hrows1|rewrite Hms2; exact Hrows2]].
  unfold recorded_rows at 1. rewrite Hbk2.
  unfold recorded_rows at 1. rewrite Hbk1, <- app_assoc. reflexivity.
Qed.

(** The loop runs to its end when nothing fails. *)
Lemma applyEach_goes_through (ms : Migrations) : forall k t rows,
  faultless B -> keeps_bookkeeping B ->
  Forall (always_runs c) ms ->
  tx k = Some t ->
  bookkeeping (working t) = Some rows ->
  exists k' t',
    applyEach c (insert_sql c) ms k = (inr tt, k') /\ tx k' = Some t'.
Proof.
  induction ms as [|m rest IH]; intros k t rows Hnofault Hframe Hall Ht Hrows.
  - exists k, t. auto.
  - inversion Hall as [|? ? Hm Hrest]; subst.
    destruct (Hm t) as [w1 Hex1].
    pose proof (execute_plain c _ _ _ _ Hframe Hex1 Hrows) as Hrows1.
    pose proof (tx_Exec_ok c (SQL m) [] k t w1 Ht (Hnofault _ _) Hex1) as Hrun1.
    set (k1 := with_tx (observe (CallExec (SQL m) []) k)
                 (Some {| started := started t; working := w1 |})) in *.
    set (t1 := {| started := started t; working := w1 |}) in *.
    set (args := [VInt (ID m); VText (Description m); VText (SQL m);
                  VSeconds (clock k1 - clock k)]).
    assert (Hex2 : execute c (insert_sql c) args t1
                   = inr {| objects := objects w1;
                            bookkeeping :=
                              Some (rows ++ [{| row_id := ID m;
                                                row_description := Description m;
                                                row_sql := SQL m;
                                                row_duration := clock k1 - clock k;
                                                row_created := started t |}]) |}).
    { unfold args. rewrite execute_insert. unfold insert_row.
      cbn [working started t1]. rewrite Hrows1. reflexivity. }
    pose proof (tx_Exec_ok c (insert_sql c) args k1 t1 _ eq_refl
                  (Hnofault _ _) Hex2) as Hrun2.
    cbn [started t1] in Hrun2.
    match type of Hrun2 with
    | _ = (_, ?k2') => set (k2 := k2') in *
    end.
    destruct (IH k2 _ _ Hnofault Hframe Hrest eq_refl eq_refl)
      as (k' & t' & Hrun & Ht').
    exists k', t'. split; [|exact Ht'].
    cbn [applyEach]. unfold bind at 1, time_Now at 1.
    unfold bind at 1, wrapping at 1. rewrite Hrun1.
    unfold bind at 1, time_Now at 1.
    unfold bind at 1, wrapping at 1. fold args. rewrite Hrun2.
    exact Hrun.
Qed.

(** X19: [Migrate] succeeds when nothing stands in its way: no call fails
    for reasons outside the model, the candidate is valid and begins with
    the recorded history, and the statement of each migration behind the
    history succeeds and leaves the bookkeeping table alone.  It then
    returns those migrations, and the whole candidate is recorded. *)
Theorem Migrate_succeeds (ms rest : Migrations) k :
  faultless B -> keeps_bookkeeping B ->
  Migrations_Valid ms = None ->
  ms = history (durable k) ++ rest ->
  Forall (always_runs c) rest ->
  exists k',
    Migrate c ms k = (inr rest, k') /\ history (durable k') = ms.
Proof.
  intros Hnofault Hframe Hv Hms Hall.
  assert (Hver : verify (history (durable k)) ms = inr rest)
    by (rewrite Hms; apply verify_prefix).
  assert (Hrun : exists k', Migrate c ms k = (inr rest, k')).
  { unfold Migrate. rewrite Hv.
    unfold bind at 1. rewrite (db_Begin_ok k (Hnofault _ _)).
    set (k1 := with_tx _ _).
    unfold defer, bind at 1. unfold init.
    rewrite (tx_Exec_ok c (init_sql c) [] k1 _ _ eq_refl (Hnofault _ _)
               (execute_init c _)).
    cbn [started working].
    set (k2 := with_tx _ _).
    unfold bind at 1.
    rewrite (verifyMigrations_run c ms k2 _ _ eq_refl
               (create_if_absent_rows (durable k)) (Hnofault _ _)).
    cbn [working]. rewrite history_create_if_absent, Hver.
    set (k3 := observe _ k2).
    destruct (applyEach_goes_through rest k3 _ _ Hnofault Hframe Hall eq_refl
                (create_if_absent_rows (durable k)))
      as (k4 & t4 & Heach & Ht4).
    unfold applyMigrations. cbv zeta.
    unfold bind at 1. rewrite Heach.
    unfold bind at 1. rewrite (tx_Commit_ok k4 t4 Ht4 (Hnofault _ _)).
    eexists. reflexivity. }
  destruct Hrun as [k' Hrun]. exists k'. split; [exact Hrun|].
  destruct (Migrate_success_rows c _ _ _ _ Hframe Hrun) as (_ & _ & _ & Hh & _).
  exact Hh.
Qed.
End MigrateMore.

Section MigrateMoreRuns.

Lemma Steady_faultless : faultless Steady.
Proof. intros call s. reflexivity. Qed.

Lemma Steady_keeps_bookkeeping : keeps_bookkeeping Steady.
Proof. intros sql args s s' [= <-]. reflexivity. Qed.

Lemma Steady_always_runs (m : Migration) :
  String.eqb (SQL m) (init_sql DefaultConfig) = false ->
  String.eqb (SQL m) (insert_sql DefaultConfig) = false ->
  @always_runs Steady DefaultConfig m.
Proof.
  intros Hinit Hinsert t. unfold execute. rewrite Hinit, Hinsert.
  cbn. eauto.
Qed.

Lemma Migrate_closes_its_transaction_witness :
  tx (snd (Migrate DefaultConfig [create_schema; broken_statement] fresh))
  = None.
Proof.
  assert (Hrun : Migrate DefaultConfig [create_schema; broken_statement] fresh
                 = (inl (ErrApply 2 "2_broken.sql"
                           (ErrDriver "pq: division by zero")),
                    snd (Migrate DefaultConfig
                           [create_schema; broken_statement] fresh)))
    by run.
  destruct (Migrate_closes_its_transaction DefaultConfig _ _ _ _ Hrun)
    as [[Htx _]|[Htx _]]; exact Htx.
Defined.

Lemma Migrate_rejects_changed_history_witness :
  exists e calls,
    @inl error Migrations (ErrModifiedMigration 1) = inl e
    /\ durable (snd (Migrate DefaultConfig [create_schema_edited] after_first))
       = durable after_first
    /\ trace (snd (Migrate DefaultConfig [create_schema_edited] after_first))
       = trace after_first ++ calls
    /\ (statements calls = []
        \/ statements calls = [init_sql DefaultConfig]).
Proof.
  assert (Hrun : Migrate DefaultConfig [create_schema_edited] after_first
                 = (inl (ErrModifiedMigration 1),
                    snd (Migrate DefaultConfig [create_schema_edited]
                           after_first)))
    by run.
  apply (Migrate_rejects_changed_history DefaultConfig _ _ _ _) with (2 := Hrun).
  intros rest Heq.
  assert (Hh : history (durable after_first) = [create_schema]) by run.
  rewrite Hh in Heq. discriminate.
Defined.

Lemma Migrate_returns_verify_error_witness :
  fst (Migrate DefaultConfig [] after_first) = inl (ErrUnknownMigration 1).
Proof.
  apply (Migrate_returns_verify_error DefaultConfig [] (ErrUnknownMigration 1)
           after_first); run.
Defined.

Lemma Migrate_twice_extends_witness :
  [create_table] = [create_table]
  /\ history (durable (snd (Migrate DefaultConfig
                              ([create_schema] ++ [create_table])
                              after_first)))
     = [create_schema] ++ [create_table].
Proof.
  assert (Hrun1 : Migrate DefaultConfig [create_schema] fresh
                  = (inr [create_schema], after_first)) by run.
  assert (Hrun2 : Migrate DefaultConfig ([create_schema] ++ [create_table])
                    after_first
                  = (inr [create_table],
                     snd (Migrate DefaultConfig
                            ([create_schema] ++ [create_table]) after_first)))
    by run.
  destruct (Migrate_twice_extends DefaultConfig _ _ _ _ _ _ _
              Journal_keeps_bookkeeping Hrun1 Hrun2) as (H1 & H2 & _).
  split; [exact H1|exact H2].
Defined.

Lemma Migrate_succeeds_witness :
  exists k',
    @Migrate Steady DefaultConfig [create_schema; create_table] steady_start
    = (inr [create_schema; create_table], k')
    /\ history (durable k') = [create_schema; create_table].
Proof.
  apply (@Migrate_succeeds Steady DefaultConfig
           [create_schema; create_table] [create_schema; create_table]
           steady_start Steady_faultless Steady_keeps_bookkeeping).
  - run.
  - run.
  - repeat constructor; apply Steady_always_runs; run.
Defined.
End MigrateMoreRuns.
